(** * Relation hook reconciliation of the CAAS operator

    A shallow embedding of [worker/caasoperator/relation/relations.go]:
    the pure diff [nextRelationHook], the relation set ([relations]) with
    its [update], [add], [setDying], [Name], [PrepareHook], [CommitHook]
    and [NextHook] methods, and the properties the specification states
    about them. *)

From Stdlib Require Import ZArith String List.
From stdpp Require Import gmap strings list fin_maps sorting.

Open Scope Z_scope.
Open Scope string_scope.
Open Scope list_scope.

(** ** Data model *)

(** [hooks.Kind]: the four relation kinds, and every other charm hook kind
    (install, start, config-changed, ...) kept by its name. *)
Inductive Kind : Type :=
  | RelationJoined
  | RelationChanged
  | RelationDeparted
  | RelationBroken
  | OtherKind (name : string).

Global Instance Kind_eq_dec : EqDecision Kind.
Proof. solve_decision. Defined.

(** [Kind.IsRelation]. *)
Definition IsRelation (k : Kind) : bool :=
  match k with
  | RelationJoined | RelationChanged | RelationDeparted | RelationBroken => true
  | OtherKind _ => false
  end.

(** [hook.Info], restricted to the fields this package sets.  A field the
    source leaves out of a composite literal holds Go's zero value. *)
Record Info : Type := mkInfo {
  InfoKind : Kind;
  RelationId : Z;
  RemoteUnit : string;
  ChangeVersion : Z
}.

(** [params.Life], a string type: its three named values and the zero
    value of a snapshot that was never filled in. *)
Inductive Life : Type := Alive | Dying | Dead | LifeUnset.

Global Instance Life_eq_dec : EqDecision Life.
Proof. solve_decision. Defined.

(** [remotestate.RelationSnapshot].  The zero value has no members. *)
Record RelationSnapshot : Type := mkSnapshot {
  SnapLife : Life;
  SnapMembers : gmap string Z
}.

(** [relation.State]: the local, persisted view of one relation. *)
Record State : Type := mkState {
  StRelationId : Z;
  Members : gmap string Z;
  ChangedPending : string
}.

(** Errors, by what the callers of this package can tell apart: the two
    resolver sentinels, the errors built with [errors.Errorf]/[errors.New]
    here, and errors coming from collaborators, classified by their
    [params] error code.  [errors.Trace] keeps the cause, so it is the
    identity on this type. *)
Inductive ErrCode : Type :=
  | CodeCannotEnterScope
  | CodeCannotEnterScopeYet
  | CodeNotFound
  | CodeUnauthorized
  | CodeOther (name : string).

Inductive error : Type :=
  | ErrNoOperation
  | ErrLoopAborted
  | ErrUnknownRelation (id : Z)
  | ErrNotRelationHook (info : Info)
  | ErrUnitWatcherClosed
  | ErrApi (code : ErrCode).

Definition IsCodeCannotEnterScope (e : error) : bool :=
  match e with ErrApi CodeCannotEnterScope => true | _ => false end.

Definition IsCodeCannotEnterScopeYet (e : option error) : bool :=
  match e with Some (ErrApi CodeCannotEnterScopeYet) => true | _ => false end.

Definition IsCodeNotFoundOrCodeUnauthorized (e : error) : bool :=
  match e with
  | ErrApi CodeNotFound | ErrApi CodeUnauthorized => true
  | _ => false
  end.

(** Reading a Go map at a missing key yields the zero value. *)
Definition version_at (m : gmap string Z) (unitName : string) : Z :=
  default 0 (m !! unitName).

(** ** The reconciliation function *)

(** [set.Strings.SortedValues] over the keys of both maps: the distinct
    names in increasing byte-wise order. *)
Definition sortedUnitNames (local : State) (remote : RelationSnapshot)
  : list string :=
  merge_sort String.le (elements (dom (Members local) ∪ dom (SnapMembers remote))).

(** First loop: locally known units that the remote state no longer has. *)
Fixpoint scanDeparted (relationId : Z) (lm rm : gmap string Z)
    (names : list string) : option Info :=
  match names with
  | [] => None
  | unitName :: rest =>
      match lm !! unitName with
      | None => scanDeparted relationId lm rm rest
      | Some changeVersion =>
          match rm !! unitName with
          | None => Some (mkInfo RelationDeparted relationId unitName changeVersion)
          | Some _ => scanDeparted relationId lm rm rest
          end
      end
  end.

(** Second loop: remote units that are not known locally. *)
Fixpoint scanJoined (relationId : Z) (lm rm : gmap string Z)
    (names : list string) : option Info :=
  match names with
  | [] => None
  | unitName :: rest =>
      match rm !! unitName with
      | None => scanJoined relationId lm rm rest
      | Some changeVersion =>
          match lm !! unitName with
          | None => Some (mkInfo RelationJoined relationId unitName changeVersion)
          | Some _ => scanJoined relationId lm rm rest
          end
      end
  end.

(** Third loop: units on both sides whose versions differ. *)
Fixpoint scanChanged (relationId : Z) (lm rm : gmap string Z)
    (names : list string) : option Info :=
  match names with
  | [] => None
  | unitName :: rest =>
      match rm !! unitName with
      | None => scanChanged relationId lm rm rest
      | Some remoteChangeVersion =>
          match lm !! unitName with
          | None => scanChanged relationId lm rm rest
          | Some localChangeVersion =>
              if bool_decide (remoteChangeVersion ≠ localChangeVersion)
              then Some (mkInfo RelationChanged relationId unitName remoteChangeVersion)
              else scanChanged relationId lm rm rest
          end
      end
  end.

(** [nextRelationHook]: [inl info] is [(info, nil)], [inr e] is
    [(hook.Info{}, e)]. *)
Definition nextRelationHook (local : State) (remote : RelationSnapshot)
    (remoteBroken : bool) : Info + error :=
  let relationId := StRelationId local in
  if bool_decide (ChangedPending local ≠ "") then
    let unitName := ChangedPending local in
    inl (mkInfo RelationChanged relationId unitName
           (version_at (SnapMembers remote) unitName))
  else
    let names := sortedUnitNames local remote in
    match scanDeparted relationId (Members local) (SnapMembers remote) names with
    | Some info => inl info
    | None =>
        if remoteBroken then inl (mkInfo RelationBroken relationId "" 0)
        else
          match scanJoined relationId (Members local) (SnapMembers remote) names with
          | Some info => inl info
          | None =>
              match scanChanged relationId (Members local) (SnapMembers remote) names with
              | Some info => inl info
              | None => inr ErrNoOperation
              end
          end
    end.

(** ** Committing hooks and calling again *)

(** Modelled from the spec: the effect of committing a hook on the local
    relation state (the body of [StateDir.Write] is missing), row by row of
    the table of commit effects: joined adds the member, changed updates it
    and clears a pending change that names it, departed removes it, broken
    clears all members. *)
Definition commitEffect (info : Info) (local : State) : State :=
  let u := RemoteUnit info in
  match InfoKind info with
  | RelationJoined =>
      mkState (StRelationId local) (<[u := ChangeVersion info]> (Members local))
        (ChangedPending local)
  | RelationChanged =>
      mkState (StRelationId local) (<[u := ChangeVersion info]> (Members local))
        (if bool_decide (ChangedPending local = u) then "" else ChangedPending local)
  | RelationDeparted =>
      mkState (StRelationId local) (delete u (Members local)) (ChangedPending local)
  | RelationBroken =>
      mkState (StRelationId local) ∅ (ChangedPending local)
  | OtherKind _ => local
  end.

(** The caller's loop: call [nextRelationHook], commit the hook returned,
    call again with the same remote snapshot.  [callsUntil stop n] is the
    number of the first call, among the first [n], whose result satisfies
    [stop]; the loop ends at the no-operation result. *)
Fixpoint callsUntil (stop : Info + error → bool) (n : nat) (local : State)
    (remote : RelationSnapshot) (remoteBroken : bool) : option nat :=
  match n with
  | O => None
  | S n' =>
      let result := nextRelationHook local remote remoteBroken in
      if stop result then Some 1%nat
      else match result with
           | inl info =>
               S <$> callsUntil stop n' (commitEffect info local) remote remoteBroken
           | inr _ => None
           end
  end.

Definition isNoOperation (result : Info + error) : bool :=
  match result with inr ErrNoOperation => true | _ => false end.


(** The number of names in the union of both member maps. *)
Definition unionSize (local : State) (remote : RelationSnapshot) : nat :=
  size (dom (Members local) ∪ dom (SnapMembers remote)).

(** ** The relation set *)

(** What this package reads of a relation endpoint: its name, whether it is
    implicit, and whether the unit's charm implements it
    ([ep.ImplementedBy(ch)]). *)
Record Endpoint : Type := mkEndpoint {
  epName : string;
  epImplicit : bool;
  epImplementedBy : bool
}.

(** [caasoperator.Relation], by the answers of the calls made on it. *)
Record Relation : Type := mkRelation {
  relId : Z;
  relEndpoint : Endpoint + error;
  relUnit : Endpoint + error
}.

(** [Relationer]: the relation unit (by its endpoint), the state held by
    its state directory, and whether it was set dying. *)
Record Relationer : Type := mkRelationer {
  ruEndpoint : Endpoint;
  dirState : State;
  dying : bool
}.

Definition NewRelationer (ru : Endpoint) (dir : State) : Relationer :=
  mkRelationer ru dir false.

Definition IsImplicit (relationer : Relationer) : bool :=
  epImplicit (ruEndpoint relationer).

(** [relations]: the registered relationers, and the relation ids that
    have a state directory under [relationsDir]. *)
Record relations : Type := mkRelations {
  relationers : gmap Z Relationer;
  stateDirs : gset Z
}.

Definition setRelationers (r : relations) (m : gmap Z Relationer) : relations :=
  mkRelations m (stateDirs r).

(** Modelled from the spec: [ReadStateDir] and [StateDir.Remove] (their
    bodies are missing) create or load the directory of a relation, and
    delete it. *)
Definition withStateDir (id : Z) (r : relations) : relations :=
  mkRelations (relationers r) ({[id]} ∪ stateDirs r).
Definition withoutStateDir (id : Z) (r : relations) : relations :=
  mkRelations (relationers r) (stateDirs r ∖ {[id]}).

(** [Name]. *)
Definition Name (r : relations) (id : Z) : string + error :=
  match relationers r !! id with
  | None => inr (ErrUnknownRelation id)
  | Some relationer => inl (epName (ruEndpoint relationer))
  end.

(** [PrepareHook]; [prepare] is [Relationer.PrepareHook]. *)
Definition PrepareHook (prepare : Relationer → Info → string + error)
    (r : relations) (hookInfo : Info) : string + error :=
  if negb (IsRelation (InfoKind hookInfo)) then inr (ErrNotRelationHook hookInfo)
  else
    match relationers r !! RelationId hookInfo with
    | None => inr (ErrUnknownRelation (RelationId hookInfo))
    | Some relationer => prepare relationer hookInfo
    end.

(** What [Relationer.CommitHook] leaves: the relationer, and whether the
    durable state of its relation was removed. *)
Record Committed : Type := mkCommitted {
  committedRelationer : Relationer;
  stateRemoved : bool
}.

(** Modelled from the spec: [Relationer.CommitHook] (its body is missing)
    persists the hook's effect on the local relation state; [persist] is
    the outcome of the durable write, the state in memory changes only when
    the write succeeded, and a committed [RelationBroken] removes the
    durable state of the relation. *)
Definition RelationerCommitHook (persist : option error)
    (relationer : Relationer) (hookInfo : Info) : Committed * option error :=
  match persist with
  | Some e => (mkCommitted relationer false, Some e)
  | None =>
      (mkCommitted
         (mkRelationer (ruEndpoint relationer)
            (commitEffect hookInfo (dirState relationer)) (dying relationer))
         (bool_decide (InfoKind hookInfo = RelationBroken)),
       None)
  end.

(** [CommitHook].  The map holds pointers: the relationer committed to is
    the one still in the map, unless the broken hook deleted its entry.  The
    state directory a relationer removes is its own, the one of the relation
    id of its state. *)
Definition CommitHook (r : relations) (hookInfo : Info) (persist : option error)
  : relations * option error :=
  if negb (IsRelation (InfoKind hookInfo)) then (r, Some (ErrNotRelationHook hookInfo))
  else
    let id := RelationId hookInfo in
    match relationers r !! id with
    | None => (r, Some (ErrUnknownRelation id))
    | Some relationer =>
        let committed := RelationerCommitHook persist relationer hookInfo in
        let r' :=
          if stateRemoved committed.1
          then withoutStateDir (StRelationId (dirState relationer)) r
          else r in
        if bool_decide (InfoKind hookInfo = RelationBroken)
        then (setRelationers r' (delete id (relationers r)), committed.2)
        else (setRelationers r'
                (<[id := committedRelationer committed.1]> (relationers r)),
              committed.2)
    end.

(** What one [select] of the loop in [add] received: the abort channel,
    the close of the watcher's channel, or a change; the change carries the
    outcome of the [relationer.Join()] it triggers. *)
Inductive Selected : Type :=
  | SelAbort
  | SelClosed
  | SelChange (joined : option error).

(** The collaborators of one [add]: [rel.Unit] is in the relation, then
    [caasUnit.Watch], what the loop receives, and [worker.Stop]. *)
Record AddScript : Type := mkAddScript {
  watchResult : option error;
  selected : list Selected;
  stopResult : option error
}.

(** The outcome of [add]: the relation set, the error returned, and how
    many times [relationer.Join()] was called. *)
Record Added : Type := mkAdded {
  addedSet : relations;
  addedErr : option error;
  joinCalls : nat
}.

(** The [for]/[select] loop of [add].  With nothing left to receive the
    loop blocks ([None]). *)
Fixpoint addLoop (r : relations) (id : Z) (relationer : Relationer)
    (received : list Selected) (calls : nat) : option Added :=
  match received with
  | [] => None
  | SelAbort :: _ => Some (mkAdded r (Some ErrLoopAborted) calls)
  | SelClosed :: _ => Some (mkAdded r (Some ErrUnitWatcherClosed) calls)
  | SelChange err :: rest =>
      if IsCodeCannotEnterScopeYet err then addLoop r id relationer rest (S calls)
      else
        match err with
        | Some e => Some (mkAdded r (Some e) (S calls))
        | None =>
            Some (mkAdded (setRelationers r (<[id := relationer]> (relationers r)))
                    None (S calls))
        end
  end.

(** [add], with the deferred [worker.Stop]: its error is returned only
    when the body returned none. *)
Definition add (r : relations) (rel : Relation) (dir : State)
    (script : AddScript) : option Added :=
  match relUnit rel with
  | inr e => Some (mkAdded r (Some e) 0)
  | inl ru =>
      let relationer := NewRelationer ru dir in
      match watchResult script with
      | Some e => Some (mkAdded r (Some e) 0)
      | None =>
          match addLoop r (relId rel) relationer (selected script) 0 with
          | None => None
          | Some out =>
              match stopResult script, addedErr out with
              | Some e, None => Some (mkAdded (addedSet out) (Some e) (joinCalls out))
              | _, _ => Some out
              end
          end
      end
  end.

(** The collaborators of [update] and [setDying] for one relation id. *)
Record UpdateScript : Type := mkUpdateScript {
  relationById : Relation + error;
  readCharmDir : option error;
  readStateDir : State + error;
  adding : AddScript;
  removeResult : option error;
  setDyingResult : option error
}.

(** [setDying].  [Relationer.SetDying] is a collaborator: it marks the
    relationer as dying, or fails with [setDyingResult]. *)
Definition setDying (env : Z → UpdateScript) (r : relations) (id : Z)
  : relations * option error :=
  match relationers r !! id with
  | None => (r, None)
  | Some relationer =>
      match setDyingResult (env id) with
      | Some e => (r, Some e)
      | None =>
          if IsImplicit relationer
          then (setRelationers r (delete id (relationers r)), None)
          else (setRelationers r
                  (<[id := mkRelationer (ruEndpoint relationer)
                              (dirState relationer) true]> (relationers r)),
                None)
      end
  end.

(** [update]; [remote] lists the entries of the map in the order the
    [range] statement visits them. *)
Fixpoint update (env : Z → UpdateScript) (r : relations)
    (remote : list (Z * RelationSnapshot)) : option (relations * option error) :=
  match remote with
  | [] => Some (r, None)
  | (id, relationSnapshot) :: rest =>
      match relationers r !! id with
      | Some _ =>
          if bool_decide (SnapLife relationSnapshot = Dying) then
            match setDying env r id with
            | (r', Some e) => Some (r', Some e)
            | (r', None) => update env r' rest
            end
          else update env r rest
      | None =>
          if bool_decide (SnapLife relationSnapshot ≠ Alive) then update env r rest
          else
            match relationById (env id) with
            | inr e =>
                if IsCodeNotFoundOrCodeUnauthorized e then update env r rest
                else Some (r, Some e)
            | inl rel =>
                match readCharmDir (env id) with
                | Some e => Some (r, Some e)
                | None =>
                    match relEndpoint rel with
                    | inr e => Some (r, Some e)
                    | inl ep =>
                        if negb (epImplementedBy ep) then update env r rest
                        else
                          match readStateDir (env id) with
                          | inr e => Some (r, Some e)
                          | inl dir =>
                              match add (withStateDir id r) rel dir (adding (env id)) with
                              | None => None
                              | Some out =>
                                  match addedErr out with
                                  | None => update env (addedSet out) rest
                                  | Some addErr =>
                                      let r' :=
                                        match removeResult (env id) with
                                        | None => withoutStateDir id (addedSet out)
                                        | Some _ => addedSet out
                                        end in
                                      if negb (IsCodeCannotEnterScope addErr)
                                      then Some (r', Some addErr)
                                      else
                                        match removeResult (env id) with
                                        | Some removeErr => Some (r', Some removeErr)
                                        | None => update env r' rest
                                        end
                                  end
                              end
                          end
                    end
                end
            end
      end
  end.

(** [resolver.LocalState.Kind], as far as it is tested here. *)
Inductive OperationKind : Type := Continue | OtherOperation (name : string).

Global Instance OperationKind_eq_dec : EqDecision OperationKind.
Proof. solve_decision. Defined.

(** The zero value [remotestate.RelationSnapshot{}]. *)
Definition emptySnapshot : RelationSnapshot := mkSnapshot LifeUnset ∅.

(** The body of the loop of [NextHook] for a registered relationer that
    is not implicit. *)
Definition relationHook (remoteLife : Life) (relationer : Relationer)
    (relationSnapshot : RelationSnapshot) : Info + error :=
  let remoteBroken :=
    bool_decide (remoteLife = Dying ∨ SnapLife relationSnapshot = Dying) in
  nextRelationHook (dirState relationer)
    (if remoteBroken then emptySnapshot else relationSnapshot) remoteBroken.

(** The loop of [NextHook] over the remote relations. *)
Fixpoint nextHookScan (r : relations) (remoteLife : Life)
    (remote : list (Z * RelationSnapshot)) : Info + error :=
  match remote with
  | [] => inr ErrNoOperation
  | (relationId, relationSnapshot) :: rest =>
      match relationers r !! relationId with
      | None => nextHookScan r remoteLife rest
      | Some relationer =>
          if IsImplicit relationer then nextHookScan r remoteLife rest
          else
            match relationHook remoteLife relationer relationSnapshot with
            | inr ErrNoOperation => nextHookScan r remoteLife rest
            | result => result
            end
      end
  end.

(** [NextHook].  The two [range] statements over [remoteState.Relations]
    may visit the map in different orders: [visitUpdate] and [visitScan]
    list the same entries. *)
Definition NextHook (env : Z → UpdateScript) (r : relations)
    (localKind : OperationKind) (remoteLife : Life)
    (visitUpdate visitScan : list (Z * RelationSnapshot))
  : option (relations * (Info + error)) :=
  match update env r visitUpdate with
  | None => None
  | Some (r', Some e) => Some (r', inr e)
  | Some (r', None) =>
      if bool_decide (localKind ≠ Continue) then Some (r', inr ErrNoOperation)
      else Some (r', nextHookScan r' remoteLife visitScan)
  end.

(** ** Predicates of the specification *)

(** The three conditions the loops test, as decidable predicates. *)
Definition departs (lm rm : gmap string Z) (u : string) : Prop :=
  is_Some (lm !! u) ∧ rm !! u = None.
Definition joins (lm rm : gmap string Z) (u : string) : Prop :=
  is_Some (rm !! u) ∧ lm !! u = None.
Definition changes (lm rm : gmap string Z) (u : string) : Prop :=
  ∃ rv lv, rm !! u = Some rv ∧ lm !! u = Some lv ∧ rv ≠ lv.

Global Instance departs_dec lm rm u : Decision (departs lm rm u).
Proof. unfold departs. apply _. Defined.
Global Instance joins_dec lm rm u : Decision (joins lm rm u).
Proof. unfold joins. apply _. Defined.
Global Instance changes_dec lm rm u : Decision (changes lm rm u).
Proof.
  unfold changes.
  destruct (rm !! u) as [rv|] eqn:Hr; [|right; intros (?&?&?&?&?); discriminate].
  destruct (lm !! u) as [lv|] eqn:Hl; [|right; intros (?&?&?&?&?); discriminate].
  destruct (decide (rv = lv)) as [->|Hne].
  - right. intros (?&?&?&?&?). congruence.
  - left. eauto.
Defined.

(** [u] is the first unit, in the sorted union, that satisfies [P]. *)
Definition first_unit (P : string → Prop) (local : State)
    (remote : RelationSnapshot) (u : string) : Prop :=
  u ∈ dom (Members local) ∪ dom (SnapMembers remote) ∧ P u ∧
  ∀ u', u' ∈ dom (Members local) ∪ dom (SnapMembers remote) → P u' → String.le u u'.

(** What a returned hook can be, by the branch that produced it. *)
Inductive hook_origin (local : State) (remote : RelationSnapshot)
    (remoteBroken : bool) : Info → Prop :=
  | origin_pending :
      ChangedPending local ≠ "" →
      hook_origin local remote remoteBroken
        (mkInfo RelationChanged (StRelationId local) (ChangedPending local)
           (version_at (SnapMembers remote) (ChangedPending local)))
  | origin_departed u v :
      ChangedPending local = "" →
      Members local !! u = Some v → SnapMembers remote !! u = None →
      hook_origin local remote remoteBroken
        (mkInfo RelationDeparted (StRelationId local) u v)
  | origin_broken :
      ChangedPending local = "" → remoteBroken = true →
      (∀ u, ¬ departs (Members local) (SnapMembers remote) u) →
      hook_origin local remote remoteBroken
        (mkInfo RelationBroken (StRelationId local) "" 0)
  | origin_joined u v :
      ChangedPending local = "" → remoteBroken = false →
      SnapMembers remote !! u = Some v → Members local !! u = None →
      hook_origin local remote remoteBroken
        (mkInfo RelationJoined (StRelationId local) u v)
  | origin_changed u v lv :
      ChangedPending local = "" → remoteBroken = false →
      SnapMembers remote !! u = Some v → Members local !! u = Some lv →
      v ≠ lv →
      hook_origin local remote remoteBroken
        (mkInfo RelationChanged (StRelationId local) u v).

(** The claim of convergence, as the specification words it. *)
Definition converges_within_bound (local : State) (remote : RelationSnapshot)
    (remoteBroken : bool) : Prop :=
  is_Some (callsUntil isNoOperation (S (unionSize local remote))
             local remote remoteBroken).

(** Units that still need a hook: a discrepancy between the two maps, or
    the pending change. *)
Definition needs_hook (local : State) (remote : RelationSnapshot) (u : string)
  : Prop :=
  departs (Members local) (SnapMembers remote) u ∨
  joins (Members local) (SnapMembers remote) u ∨
  changes (Members local) (SnapMembers remote) u ∨
  (ChangedPending local ≠ "" ∧ u = ChangedPending local).

Global Instance needs_hook_dec local remote u : Decision (needs_hook local remote u).
Proof. unfold needs_hook. apply _. Defined.



(** The transient rejection of [EnterScope]. *)
Definition cannotEnterScopeYet : Selected :=
  SelChange (Some (ErrApi CodeCannotEnterScopeYet)).

(** ** The rest of the relation set *)

(** [relationsResolver.NextOp]; [newRunHook] is [opFactory.NewRunHook]. *)
Definition NextOp {Operation : Type} (newRunHook : Info → Operation + error)
    (env : Z → UpdateScript) (r : relations)
    (localKind : OperationKind) (remoteLife : Life)
    (visitUpdate visitScan : list (Z * RelationSnapshot))
  : option (relations * (Operation + error)) :=
  match NextHook env r localKind remoteLife visitUpdate visitScan with
  | None => None
  | Some (r', inr e) => Some (r', inr e)
  | Some (r', inl hook) => Some (r', newRunHook hook)
  end.

(** [GetInfo]; [ContextInfo] is [Relationer.ContextInfo].  The loop fills a
    new map, one entry per registered relationer. *)
Definition GetInfo {RelationInfo : Type} (ContextInfo : Relationer → RelationInfo)
    (r : relations) : gmap Z RelationInfo :=
  map_fold (λ id relationer relationInfos,
              <[id := ContextInfo relationer]> relationInfos)
    ∅ (relationers r).

(** First loop of [init]: [st.Relation] for each joined tag, collected
    under the id of the relation. *)
Fixpoint loadJoined (relationOfTag : string → Relation + error)
    (joinedRelationTags : list string) (joinedRelations : gmap Z Relation)
  : gmap Z Relation + error :=
  match joinedRelationTags with
  | [] => inl joinedRelations
  | tag :: rest =>
      match relationOfTag tag with
      | inr e => inr e
      | inl relation =>
          loadJoined relationOfTag rest
            (<[relId relation := relation]> joinedRelations)
      end
  end.

(** Second loop of [init], over the known state directories: a directory
    of a joined relation is added, any other is removed. *)
Fixpoint initKnown (env : Z → UpdateScript) (joinedRelations : gmap Z Relation)
    (r : relations) (knownDirs : list (Z * State))
  : option (relations * option error) :=
  match knownDirs with
  | [] => Some (r, None)
  | (id, dir) :: rest =>
      match joinedRelations !! id with
      | Some rel =>
          match add r rel dir (adding (env id)) with
          | None => None
          | Some out =>
              match addedErr out with
              | Some e => Some (addedSet out, Some e)
              | None => initKnown env joinedRelations (addedSet out) rest
              end
          end
      | None =>
          match removeResult (env id) with
          | Some e => Some (r, Some e)
          | None => initKnown env joinedRelations (withoutStateDir id r) rest
          end
      end
  end.

(** Third loop of [init], over the joined relations: one without a known
    directory gets a directory and is added. *)
Fixpoint initJoined (env : Z → UpdateScript) (knownIds : list Z)
    (r : relations) (joined : list (Z * Relation))
  : option (relations * option error) :=
  match joined with
  | [] => Some (r, None)
  | (id, rel) :: rest =>
      if bool_decide (id ∈ knownIds) then initJoined env knownIds r rest
      else
        match readStateDir (env id) with
        | inr e => Some (r, Some e)
        | inl dir =>
            match add (withStateDir id r) rel dir (adding (env id)) with
            | None => None
            | Some out =>
                match addedErr out with
                | Some e => Some (addedSet out, Some e)
                | None => initJoined env knownIds (addedSet out) rest
                end
            end
        end
  end.

(** [init].  [JoinedRelations], [st.Relation] and [ReadAllStateDirs] are
    collaborators; [knownDirs] lists the directories, and [visitJoined] the
    joined relations, in the order their [range] statement visits them. *)
Definition init (env : Z → UpdateScript)
    (JoinedRelations : list string + error)
    (relationOfTag : string → Relation + error)
    (ReadAllStateDirs : list (Z * State) + error)
    (visitJoined : gmap Z Relation → list (Z * Relation))
    (r : relations) : option (relations * option error) :=
  match JoinedRelations with
  | inr e => Some (r, Some e)
  | inl joinedRelationTags =>
      match loadJoined relationOfTag joinedRelationTags ∅ with
      | inr e => Some (r, Some e)
      | inl joinedRelations =>
          match ReadAllStateDirs with
          | inr e => Some (r, Some e)
          | inl knownDirs =>
              match initKnown env joinedRelations r knownDirs with
              | None => None
              | Some (r1, Some e) => Some (r1, Some e)
              | Some (r1, None) =>
                  initJoined env knownDirs.*1 r1 (visitJoined joinedRelations)
              end
          end
      end
  end.

(** The body of the loop of [update] for one entry of the map: the
    relation set it leaves, and the error that ends the loop, if any. *)
Definition updateOne (env : Z → UpdateScript) (r : relations)
    (id : Z) (relationSnapshot : RelationSnapshot)
  : option (relations * option error) :=
  match relationers r !! id with
  | Some _ =>
      if bool_decide (SnapLife relationSnapshot = Dying)
      then Some (setDying env r id)
      else Some (r, None)
  | None =>
      if bool_decide (SnapLife relationSnapshot ≠ Alive) then Some (r, None)
      else
        match relationById (env id) with
        | inr e =>
            if IsCodeNotFoundOrCodeUnauthorized e then Some (r, None)
            else Some (r, Some e)
        | inl rel =>
            match readCharmDir (env id) with
            | Some e => Some (r, Some e)
            | None =>
                match relEndpoint rel with
                | inr e => Some (r, Some e)
                | inl ep =>
                    if negb (epImplementedBy ep) then Some (r, None)
                    else
                      match readStateDir (env id) with
                      | inr e => Some (r, Some e)
                      | inl dir =>
                          match add (withStateDir id r) rel dir (adding (env id)) with
                          | None => None
                          | Some out =>
                              match addedErr out, removeResult (env id) with
                              | None, _ => Some (addedSet out, None)
                              | Some addErr, None =>
                                  Some (withoutStateDir id (addedSet out),
                                        if IsCodeCannotEnterScope addErr
                                        then None else Some addErr)
                              | Some addErr, Some removeErr =>
                                  Some (addedSet out,
                                        if IsCodeCannotEnterScope addErr
                                        then Some removeErr else Some addErr)
                              end
                          end
                      end
                end
            end
        end
  end.

(** What the collaborators of [update] answer for a relation id is about
    that relation: [RelationById] returns the relation of that id. *)
Definition answers_by_id (env : Z → UpdateScript) : Prop :=
  ∀ id rel, relationById (env id) = inl rel → relId rel = id.

(** Each relationer is registered under the relation id of its state. *)
Definition well_keyed (r : relations) : Prop :=
  ∀ id relationer, relationers r !! id = Some relationer →
    StRelationId (dirState relationer) = id.

(** [ReadStateDir] returns the state of the relation id it is asked for. *)
Definition dirs_by_id (env : Z → UpdateScript) : Prop :=
  ∀ id dir, readStateDir (env id) = inl dir → StRelationId dir = id.

(** An entry of the remote map that [update] passes over. *)
Definition passed_over (env : Z → UpdateScript) (r : relations)
    (entry : Z * RelationSnapshot) : Prop :=
  match relationers r !! entry.1 with
  | Some _ => SnapLife entry.2 ≠ Dying
  | None =>
      SnapLife entry.2 ≠ Alive ∨
      match relationById (env entry.1) with
      | inr e => IsCodeNotFoundOrCodeUnauthorized e = true
      | inl rel =>
          readCharmDir (env entry.1) = None ∧
          ∃ ep, relEndpoint rel = inl ep ∧ epImplementedBy ep = false
      end
  end.

(** Nothing to do for an entry visited by the loop of [NextHook]. *)
Definition nothing_to_do (r : relations) (remoteLife : Life)
    (entry : Z * RelationSnapshot) : Prop :=
  match relationers r !! entry.1 with
  | None => True
  | Some relationer =>
      IsImplicit relationer = true ∨
      relationHook remoteLife relationer entry.2 = inr ErrNoOperation
  end.

(** A relationer as [add] builds it for the joined relation of its id, on
    a state directory that [from] allows for that id. *)
Definition built_for (joined : gmap Z Relation) (from : Z → State → Prop)
    (id : Z) (relationer : Relationer) : Prop :=
  ∃ rel ru dir,
    joined !! id = Some rel ∧ relUnit rel = inl ru ∧
    relationer = NewRelationer ru dir ∧ from id dir.

(** ** Facts about the scans *)

Section first_match.
Context {A : Type} (R : relation A) (P : A → Prop) `{!∀ x, Decision (P x)}.

(** In a strongly sorted list the first element that satisfies [P] is
    below every other element that satisfies it. *)
Lemma list_find_sorted_least (l : list A) (i : nat) (x : A) :
  Reflexive R → StronglySorted R l →
  list_find P l = Some (i, x) →
  ∀ y, y ∈ l → P y → R x y.
Proof.
  intros Hrefl Hsorted. revert i.
  induction Hsorted as [|a l Hsl IH Hall]; intros i Hfind y Hy HPy.
  - inversion Hy.
  - cbn in Hfind. destruct (decide (P a)) as [Ha|Ha].
    + injection Hfind as _ <-.
      apply elem_of_cons in Hy as [->|Hy]; [apply Hrefl|].
      rewrite Forall_forall in Hall. apply Hall, Hy.
    + destruct (list_find P l) as [[j z]|] eqn:Hrec; [|discriminate].
      cbn in Hfind. injection Hfind as _ <-.
      apply elem_of_cons in Hy as [->|Hy]; [contradiction|].
      eapply IH; eauto.
Qed.

(** Conversely the least element that satisfies [P] is the one found. *)
Lemma list_find_least_found (l : list A) (x : A) :
  Reflexive R → AntiSymm (=) R → StronglySorted R l →
  x ∈ l → P x → (∀ y, y ∈ l → P y → R x y) →
  ∃ i, list_find P l = Some (i, x).
Proof.
  intros Hrefl Hanti Hsorted Hx HPx Hleast.
  destruct (list_find_elem_of P l x Hx HPx) as [[i z] Hfind].
  exists i. rewrite Hfind. do 2 f_equal.
  pose proof Hfind as Hz. apply list_find_Some in Hz as (Hlook & HPz & _).
  apply Hanti.
  - eapply list_find_sorted_least; eauto.
  - apply Hleast; [|done]. eapply list_elem_of_lookup_2; eauto.
Qed.
End first_match.

Lemma scanDeparted_find id lm rm names :
  scanDeparted id lm rm names =
  (λ p, mkInfo RelationDeparted id p.2 (version_at lm p.2))
    <$> list_find (departs lm rm) names.
Proof.
  induction names as [|u rest IH]; [done|].
  cbn [scanDeparted list_find]. unfold version_at.
  destruct (decide (departs lm rm u)) as [[[v Hl] Hr]|Hn].
  - rewrite Hl, Hr. cbn. by rewrite Hl.
  - assert (scanDeparted id lm rm (u :: rest) = scanDeparted id lm rm rest) as Hskip.
    { cbn. destruct (lm !! u) eqn:Hl; [|done].
      destruct (rm !! u) eqn:Hr; [done|]. exfalso. apply Hn. split; eauto. }
    cbn in Hskip. rewrite Hskip, IH.
    destruct (list_find (departs lm rm) rest) as [[j z]|]; done.
Qed.

Lemma scanJoined_find id lm rm names :
  scanJoined id lm rm names =
  (λ p, mkInfo RelationJoined id p.2 (version_at rm p.2))
    <$> list_find (joins lm rm) names.
Proof.
  induction names as [|u rest IH]; [done|].
  cbn [scanJoined list_find]. unfold version_at.
  destruct (decide (joins lm rm u)) as [[[v Hr] Hl]|Hn].
  - rewrite Hl, Hr. cbn. by rewrite Hr.
  - assert (scanJoined id lm rm (u :: rest) = scanJoined id lm rm rest) as Hskip.
    { cbn. destruct (rm !! u) eqn:Hr; [|done].
      destruct (lm !! u) eqn:Hl; [done|]. exfalso. apply Hn. split; eauto. }
    cbn in Hskip. rewrite Hskip, IH.
    destruct (list_find (joins lm rm) rest) as [[j z]|]; done.
Qed.

Lemma scanChanged_find id lm rm names :
  scanChanged id lm rm names =
  (λ p, mkInfo RelationChanged id p.2 (version_at rm p.2))
    <$> list_find (changes lm rm) names.
Proof.
  induction names as [|u rest IH]; [done|].
  cbn [scanChanged list_find]. unfold version_at.
  destruct (decide (changes lm rm u)) as [(rv & lv & Hr & Hl & Hne)|Hn].
  - rewrite Hl, Hr. rewrite bool_decide_true by done. cbn. by rewrite Hr.
  - assert (scanChanged id lm rm (u :: rest) = scanChanged id lm rm rest) as Hskip.
    { cbn. destruct (rm !! u) as [rv|] eqn:Hr; [|done].
      destruct (lm !! u) as [lv|] eqn:Hl; [|done].
      case_bool_decide; [|done]. exfalso. apply Hn. exists rv, lv. eauto. }
    cbn in Hskip. rewrite Hskip, IH.
    destruct (list_find (changes lm rm) rest) as [[j z]|]; done.
Qed.

(** The names scanned: each name of either map once, in increasing order. *)
Lemma sortedUnitNames_elem local remote u :
  u ∈ sortedUnitNames local remote ↔
  u ∈ dom (Members local) ∪ dom (SnapMembers remote).
Proof.
  unfold sortedUnitNames. rewrite merge_sort_Permutation. apply elem_of_elements.
Qed.

Lemma sortedUnitNames_sorted local remote :
  StronglySorted String.le (sortedUnitNames local remote).
Proof. apply StronglySorted_merge_sort; apply _. Qed.

Lemma sortedUnitNames_NoDup local remote :
  NoDup (sortedUnitNames local remote).
Proof.
  unfold sortedUnitNames. rewrite merge_sort_Permutation. apply NoDup_elements.
Qed.

Lemma sortedUnitNames_length local remote :
  length (sortedUnitNames local remote) =
  size (dom (Members local) ∪ dom (SnapMembers remote)).
Proof. unfold sortedUnitNames. by rewrite merge_sort_Permutation. Qed.

Lemma first_unit_found P `{!∀ x, Decision (P x)} local remote u :
  first_unit P local remote u →
  ∃ i, list_find P (sortedUnitNames local remote) = Some (i, u).
Proof.
  intros (Hu & HP & Hleast).
  apply (list_find_least_found String.le); try apply _; try done.
  - apply sortedUnitNames_sorted.
  - by apply sortedUnitNames_elem.
  - intros y Hy. apply Hleast. by apply sortedUnitNames_elem.
Qed.

Lemma none_found P `{!∀ x, Decision (P x)} local remote :
  (∀ u, ¬ P u) → list_find P (sortedUnitNames local remote) = None.
Proof. intros Hno. apply list_find_None, Forall_forall. intros x _. apply Hno. Qed.

Lemma found_first_unit P `{!∀ x, Decision (P x)} local remote i u :
  list_find P (sortedUnitNames local remote) = Some (i, u) →
  first_unit P local remote u.
Proof.
  intros Hfind. pose proof Hfind as (Hlook & HP & _)%list_find_Some.
  split; [|split; [done|]].
  - apply sortedUnitNames_elem. eapply list_elem_of_lookup_2; eauto.
  - intros y Hy HPy.
    eapply (list_find_sorted_least String.le P); eauto; try apply _.
    + apply sortedUnitNames_sorted.
    + by apply sortedUnitNames_elem.
Qed.

(** When nothing satisfies [P], nothing is found; when something does, the
    scan stops at the first such unit. *)
Lemma first_unit_exists P `{!∀ x, Decision (P x)} local remote u :
  u ∈ dom (Members local) ∪ dom (SnapMembers remote) → P u →
  ∃ u', first_unit P local remote u'.
Proof.
  intros Hu HP.
  destruct (list_find_elem_of P (sortedUnitNames local remote) u) as [[i z] Hz];
    [by apply sortedUnitNames_elem|done|].
  exists z. by eapply found_first_unit.
Qed.

Lemma find_none_all P `{!∀ x, Decision (P x)} local remote :
  list_find P (sortedUnitNames local remote) = None →
  ∀ u, u ∈ dom (Members local) ∪ dom (SnapMembers remote) → ¬ P u.
Proof.
  intros Hnone u Hu. apply list_find_None in Hnone.
  rewrite Forall_forall in Hnone. by apply Hnone, sortedUnitNames_elem.
Qed.

Lemma nextRelationHook_origin local remote remoteBroken info :
  nextRelationHook local remote remoteBroken = inl info →
  hook_origin local remote remoteBroken info.
Proof.
  unfold nextRelationHook. case_bool_decide as Hp.
  { intros [= <-]. by constructor. }
  assert (ChangedPending local = "") as Hp' by (by destruct (decide (ChangedPending local = ""))).
  rewrite scanDeparted_find, scanJoined_find, scanChanged_find.
  destruct (list_find (departs _ _) _) as [[i u]|] eqn:Hd; cbn.
  { intros [= <-]. apply list_find_Some in Hd as (_ & [[v Hl] Hr] & _).
    unfold version_at. cbn. rewrite Hl. cbn. by constructor. }
  destruct remoteBroken.
  { intros [= <-]. constructor; [done..|].
    intros u Hu. eapply (find_none_all _ _ _ Hd); [|done].
    destruct Hu as [Hu _]. apply elem_of_union_l, elem_of_dom, Hu. }
  destruct (list_find (joins _ _) _) as [[i u]|] eqn:Hj; cbn.
  { intros [= <-]. apply list_find_Some in Hj as (_ & [[v Hr] Hl] & _).
    unfold version_at. cbn. rewrite Hr. cbn. by constructor. }
  destruct (list_find (changes _ _) _) as [[i u]|] eqn:Hc; cbn; [|done].
  intros [= <-]. apply list_find_Some in Hc as (_ & (rv & lv & Hr & Hl & Hne) & _).
  unfold version_at. cbn. rewrite Hr. cbn. by econstructor.
Qed.

(** ** Pending change replay *)

(** C1: when the local state names a pending unit, [nextRelationHook]
    returns a [RelationChanged] hook for exactly that unit, carrying the
    remote version of the unit (zero when the remote snapshot does not have
    it), whatever the two member maps and [remoteBroken] are. *)
Theorem pending_change_replayed (local : State) (remote : RelationSnapshot)
    (remoteBroken : bool) :
  ChangedPending local ≠ "" →
  nextRelationHook local remote remoteBroken =
    inl (mkInfo RelationChanged (StRelationId local) (ChangedPending local)
           (match SnapMembers remote !! ChangedPending local with
            | Some v => v
            | None => 0
            end)).
Proof.
  intros Hp. unfold nextRelationHook. rewrite bool_decide_true by done.
  unfold version_at. by destruct (SnapMembers remote !! ChangedPending local).
Qed.

Lemma pending_change_replayed_witness :
  nextRelationHook
    (mkState 3 (<["gone/0" := 4]> ∅) "db/1")
    (mkSnapshot Dying (<["new/0" := 9]> ∅)) true
  = inl (mkInfo RelationChanged 3 "db/1" 0).
Proof.
  rewrite pending_change_replayed by discriminate.
  vm_compute. reflexivity.
Defined.

(** ** Precedence *)

(** The branches of [nextRelationHook] once no change is pending. *)
Lemma no_pending_unfold local remote remoteBroken :
  ChangedPending local = "" →
  nextRelationHook local remote remoteBroken =
  let names := sortedUnitNames local remote in
  let hookOf kind m := λ p : nat * string,
    mkInfo kind (StRelationId local) p.2 (version_at m p.2) in
  match hookOf RelationDeparted (Members local)
          <$> list_find (departs (Members local) (SnapMembers remote)) names with
  | Some info => inl info
  | None =>
      if remoteBroken then inl (mkInfo RelationBroken (StRelationId local) "" 0)
      else
        match hookOf RelationJoined (SnapMembers remote)
                <$> list_find (joins (Members local) (SnapMembers remote)) names with
        | Some info => inl info
        | None =>
            match hookOf RelationChanged (SnapMembers remote)
                    <$> list_find (changes (Members local) (SnapMembers remote)) names with
            | Some info => inl info
            | None => inr ErrNoOperation
            end
        end
  end.
Proof.
  intros Hp. unfold nextRelationHook. rewrite bool_decide_false by (by intros []).
  by rewrite scanDeparted_find, scanJoined_find, scanChanged_find.
Qed.

Lemma precedence_departed local remote remoteBroken u :
  ChangedPending local = "" →
  first_unit (departs (Members local) (SnapMembers remote)) local remote u →
  nextRelationHook local remote remoteBroken =
  inl (mkInfo RelationDeparted (StRelationId local) u (version_at (Members local) u)).
Proof.
  intros Hp Hu. rewrite no_pending_unfold by done. cbn zeta.
  by destruct (first_unit_found _ _ _ _ Hu) as [i ->].
Qed.

Lemma precedence_broken local remote :
  ChangedPending local = "" →
  (∀ u, ¬ departs (Members local) (SnapMembers remote) u) →
  nextRelationHook local remote true =
  inl (mkInfo RelationBroken (StRelationId local) "" 0).
Proof.
  intros Hp Hnd. rewrite no_pending_unfold by done. cbn zeta.
  by rewrite none_found.
Qed.

Lemma precedence_joined local remote u :
  ChangedPending local = "" →
  (∀ w, ¬ departs (Members local) (SnapMembers remote) w) →
  first_unit (joins (Members local) (SnapMembers remote)) local remote u →
  nextRelationHook local remote false =
  inl (mkInfo RelationJoined (StRelationId local) u (version_at (SnapMembers remote) u)).
Proof.
  intros Hp Hnd Hu. rewrite no_pending_unfold by done. cbn zeta.
  rewrite none_found by done. cbn.
  by destruct (first_unit_found _ _ _ _ Hu) as [i ->].
Qed.

Lemma precedence_changed local remote u :
  ChangedPending local = "" →
  (∀ w, ¬ departs (Members local) (SnapMembers remote) w) →
  (∀ w, ¬ joins (Members local) (SnapMembers remote) w) →
  first_unit (changes (Members local) (SnapMembers remote)) local remote u →
  nextRelationHook local remote false =
  inl (mkInfo RelationChanged (StRelationId local) u (version_at (SnapMembers remote) u)).
Proof.
  intros Hp Hnd Hnj Hu. rewrite no_pending_unfold by done. cbn zeta.
  rewrite !none_found by done. cbn.
  by destruct (first_unit_found _ _ _ _ Hu) as [i ->].
Qed.

Lemma precedence_nothing local remote :
  ChangedPending local = "" →
  (∀ w, ¬ departs (Members local) (SnapMembers remote) w) →
  (∀ w, ¬ joins (Members local) (SnapMembers remote) w) →
  (∀ w, ¬ changes (Members local) (SnapMembers remote) w) →
  nextRelationHook local remote false = inr ErrNoOperation.
Proof.
  intros Hp Hnd Hnj Hnc. rewrite no_pending_unfold by done. cbn zeta.
  by rewrite !none_found.
Qed.

(** C2: with no pending change, the result follows the precedence
    departed, broken, joined, changed, nothing, each scan stopping at the
    first unit of the sorted union that qualifies. *)
Theorem precedence_first_match (local : State) (remote : RelationSnapshot)
    (remoteBroken : bool) :
  ChangedPending local = "" →
  let lm := Members local in
  let rm := SnapMembers remote in
  let id := StRelationId local in
  let result := nextRelationHook local remote remoteBroken in
  (∀ u, first_unit (departs lm rm) local remote u →
        result = inl (mkInfo RelationDeparted id u (version_at lm u))) ∧
  ((∀ u, ¬ departs lm rm u) → remoteBroken = true →
        result = inl (mkInfo RelationBroken id "" 0)) ∧
  ((∀ u, ¬ departs lm rm u) → remoteBroken = false →
     ∀ u, first_unit (joins lm rm) local remote u →
        result = inl (mkInfo RelationJoined id u (version_at rm u))) ∧
  ((∀ u, ¬ departs lm rm u) → remoteBroken = false →
   (∀ u, ¬ joins lm rm u) →
     ∀ u, first_unit (changes lm rm) local remote u →
        result = inl (mkInfo RelationChanged id u (version_at rm u))) ∧
  ((∀ u, ¬ departs lm rm u) → remoteBroken = false →
   (∀ u, ¬ joins lm rm u) → (∀ u, ¬ changes lm rm u) →
        result = inr ErrNoOperation).
Proof.
  intros Hp lm rm id result. subst lm rm id result. repeat split.
  - intros u Hu. by apply precedence_departed.
  - intros Hnd ->. by apply precedence_broken.
  - intros Hnd -> u Hu. by apply precedence_joined.
  - intros Hnd -> Hnj u Hu. by apply precedence_changed.
  - intros Hnd -> Hnj Hnc. by apply precedence_nothing.
Qed.

Lemma precedence_first_match_witness :
  nextRelationHook (mkState 1 {["a" := 1]} "") (mkSnapshot Alive {["b" := 1]}) false
  = inl (mkInfo RelationDeparted 1 "a" 1).
Proof.
  destruct (precedence_first_match
              (mkState 1 {["a" := 1]} "") (mkSnapshot Alive {["b" := 1]}) false
              eq_refl) as (Hdeparted & _).
  rewrite (Hdeparted "a"); [vm_compute; reflexivity|].
  split; [|split]; cbn [Members SnapMembers].
  - rewrite !dom_singleton_L. set_solver.
  - split; [by rewrite lookup_singleton_eq|by rewrite lookup_singleton_ne].
  - intros u' _ [[v Hl] _]. apply lookup_singleton_Some in Hl as [<- _]. done.
Defined.

(** Departures come before joins, and units are visited in increasing
    order of their names, over successive calls. *)
Example departed_then_joined :
  let local := mkState 1 {["a" := 1]} "" in
  let remote := mkSnapshot Alive {["b" := 1]} in
  let departed := mkInfo RelationDeparted 1 "a" 1 in
  nextRelationHook local remote false = inl departed ∧
  nextRelationHook (commitEffect departed local) remote false
    = inl (mkInfo RelationJoined 1 "b" 1).
Proof. vm_compute. done. Qed.

Example joined_in_name_order :
  let local := mkState 1 ∅ "" in
  let remote := mkSnapshot Alive (<["z" := 1]> {["a" := 1]}) in
  let first := mkInfo RelationJoined 1 "a" 1 in
  nextRelationHook local remote false = inl first ∧
  nextRelationHook (commitEffect first local) remote false
    = inl (mkInfo RelationJoined 1 "z" 1).
Proof. vm_compute. done. Qed.

Example broken_without_members :
  nextRelationHook (mkState 1 ∅ "") (mkSnapshot Alive ∅) true
  = inl (mkInfo RelationBroken 1 "" 0).
Proof. vm_compute. reflexivity. Qed.


(** ** Settings changes *)

(** C3: once nothing departs or joins and the relation is not broken, a
    unit known on both sides with different versions makes
    [nextRelationHook] return [RelationChanged], for the first such unit
    and with its remote version; only inequality of the versions matters. *)
Theorem changed_on_inequality (local : State) (remote : RelationSnapshot)
    (u : string) (rv lv : Z) :
  ChangedPending local = "" →
  (∀ w, ¬ departs (Members local) (SnapMembers remote) w) →
  (∀ w, ¬ joins (Members local) (SnapMembers remote) w) →
  SnapMembers remote !! u = Some rv →
  Members local !! u = Some lv →
  rv ≠ lv →
  ∃ u', first_unit (changes (Members local) (SnapMembers remote)) local remote u' ∧
        String.le u' u ∧
        nextRelationHook local remote false =
          inl (mkInfo RelationChanged (StRelationId local) u'
                 (version_at (SnapMembers remote) u')).
Proof.
  intros Hp Hnd Hnj Hr Hl Hne.
  assert (changes (Members local) (SnapMembers remote) u) as Hc
    by (exists rv, lv; eauto).
  assert (u ∈ dom (Members local) ∪ dom (SnapMembers remote)) as Hu
    by (apply elem_of_union_l, elem_of_dom; eauto).
  destruct (first_unit_exists _ local remote u Hu Hc) as [u' Hfirst].
  exists u'. split; [done|]. split.
  - destruct Hfirst as (_ & _ & Hleast). by apply Hleast.
  - by apply precedence_changed.
Qed.

Lemma changed_on_inequality_witness :
  nextRelationHook (mkState 0 {["a" := 5]} "") (mkSnapshot Alive {["a" := 2]}) false
  = inl (mkInfo RelationChanged 0 "a" 2).
Proof.
  destruct (changed_on_inequality
              (mkState 0 {["a" := 5]} "") (mkSnapshot Alive {["a" := 2]}) "a" 2 5)
    as (u' & (_ & (rv & lv & Hr & _) & _) & _ & ->); cbn [Members SnapMembers ChangedPending].
  - reflexivity.
  - intros w [[v Hl] Hr]. apply lookup_singleton_Some in Hl as [<- _].
    by rewrite lookup_singleton_eq in Hr.
  - intros w [[v Hr] Hl]. apply lookup_singleton_Some in Hr as [<- _].
    by rewrite lookup_singleton_eq in Hl.
  - apply lookup_singleton_eq.
  - apply lookup_singleton_eq.
  - lia.
  - cbn [SnapMembers] in Hr. apply lookup_singleton_Some in Hr as [<- _].
    vm_compute. reflexivity.
Defined.

(** ** Convergence of repeated calls *)








Lemma callsUntil_mono stop n m local remote remoteBroken k :
  callsUntil stop n local remote remoteBroken = Some k → (n ≤ m)%nat →
  callsUntil stop m local remote remoteBroken = Some k.
Proof.
  revert m local k. induction n as [|n IH]; intros m local k; cbn; [done|].
  intros Hrun Hle. destruct m as [|m]; [lia|]. cbn.
  destruct (stop _); [done|].
  destruct (nextRelationHook _ _ _) as [info|]; [|done].
  destruct (callsUntil stop n _ _ _) as [j|] eqn:Hrec; [|done].
  rewrite (IH m _ j Hrec) by lia. done.
Qed.




Lemma error_is_noop local remote remoteBroken e :
  nextRelationHook local remote remoteBroken = inr e →
  e = ErrNoOperation ∧ remoteBroken = false.
Proof.
  unfold nextRelationHook. case_bool_decide; [done|].
  destruct (scanDeparted _ _ _ _); [done|].
  destruct remoteBroken; [done|].
  destruct (scanJoined _ _ _ _); [done|].
  destruct (scanChanged _ _ _ _); [done|]. by intros [= <-].
Qed.




(** With [remoteBroken] set and nothing left to depart, every call returns
    [RelationBroken] again: the commit of [RelationBroken] empties the
    members, which is the state the next call starts from. *)
Lemma broken_repeats :
  let local := mkState 0 ∅ "" in
  let remote := mkSnapshot Alive ∅ in
  nextRelationHook local remote true = inl (mkInfo RelationBroken 0 "" 0) ∧
  commitEffect (mkInfo RelationBroken 0 "" 0) local = local.
Proof. vm_compute. done. Qed.


(** It also fails without [remoteBroken] when the pending change names a
    unit the remote snapshot does not have: the replayed change is
    followed by the departure of the same unit, three calls for a union of
    one name. *)
Lemma convergence_fails_on_stale_pending :
  let local := mkState 0 {["u" := 1]} "u" in
  let remote := mkSnapshot Alive ∅ in
  ¬ converges_within_bound local remote false ∧
  callsUntil isNoOperation 3 local remote false = Some 3%nat.
Proof.
  split.
  - unfold converges_within_bound. vm_compute. intros [k Hk]. discriminate.
  - vm_compute. reflexivity.
Qed.



(** ** The scope-join protocol *)

Lemma addLoop_retries r id relationer n rest calls :
  addLoop r id relationer (replicate n cannotEnterScopeYet ++ rest) calls =
  addLoop r id relationer rest (n + calls).
Proof.
  revert calls. induction n as [|n IH]; intros calls; [done|].
  cbn. rewrite IH. f_equal. lia.
Qed.

(** Rejected every time and never told to stop, [add] does not return. *)
Lemma add_waits r rel dir script ru n :
  relUnit rel = inl ru → watchResult script = None →
  selected script = replicate n cannotEnterScopeYet →
  add r rel dir script = None.
Proof.
  intros Hu Hw Hs. unfold add. rewrite Hu, Hw, Hs.
  rewrite <- (app_nil_r (replicate _ _)), addLoop_retries. done.
Qed.

(** C7: when the abort channel is what [add] receives while it waits, after
    any number of transient rejections and in particular before any change
    of the watcher, [add] returns [ErrLoopAborted], makes no further call of
    [Join] (none at all when the abort comes first) and registers nothing. *)
Theorem add_aborted (r : relations) (rel : Relation) (dir : State)
    (script : AddScript) (ru : Endpoint) (n : nat) (rest : list Selected) :
  relUnit rel = inl ru →
  watchResult script = None →
  selected script = replicate n cannotEnterScopeYet ++ SelAbort :: rest →
  add r rel dir script = Some (mkAdded r (Some ErrLoopAborted) n).
Proof.
  intros Hu Hw Hs. unfold add. rewrite Hu, Hw, Hs, addLoop_retries. cbn.
  rewrite Nat.add_0_r. by destruct (stopResult script).
Qed.

Lemma add_aborted_witness :
  let r := mkRelations ∅ {[4]} in
  let ep := mkEndpoint "db" false true in
  add r (mkRelation 4 (inl ep) (inl ep)) (mkState 4 ∅ "")
      (mkAddScript None [SelAbort; SelChange None] (Some ErrUnitWatcherClosed))
  = Some (mkAdded r (Some ErrLoopAborted) 0).
Proof.
  intros r ep.
  apply (add_aborted r _ _ _ ep 0 [SelChange None]); reflexivity.
Defined.

(** C8, as stated, fails when stopping the unit watcher fails: [Join] is
    rejected once, then succeeds, the relationer is registered and no other
    call of [Join] is made, but the deferred [worker.Stop] returns an error
    and [add] returns that error instead of returning successfully. *)
Lemma joined_but_stop_failed :
  let ep := mkEndpoint "db" false true in
  let stopped := ErrApi (CodeOther "watcher died") in
  let outcome :=
    add (mkRelations ∅ {[4]}) (mkRelation 4 (inl ep) (inl ep)) (mkState 4 ∅ "")
      (mkAddScript None [cannotEnterScopeYet; SelChange None] (Some stopped)) in
  outcome =
    Some (mkAdded (mkRelations {[4 := NewRelationer ep (mkState 4 ∅ "")]} {[4]})
            (Some stopped) 2) ∧
  (addedErr <$> outcome) ≠ Some None.
Proof. vm_compute. split; [reflexivity|discriminate]. Qed.

(** C8 (amended): transient rejections make [add] wait for the next change
    and call [Join] again; the call that succeeds registers the relationer
    and is the last call of [Join], and [add] then returns without error
    provided that stopping the unit watcher (the deferred [worker.Stop])
    returns no error; an error of [Join] other than the transient one is
    returned. *)
Theorem add_retries_until_joined (r : relations) (rel : Relation) (dir : State)
    (script : AddScript) (ru : Endpoint) (n : nat) (rest : list Selected) :
  relUnit rel = inl ru →
  watchResult script = None →
  (selected script = replicate n cannotEnterScopeYet ++ SelChange None :: rest →
   stopResult script = None →
   add r rel dir script =
     Some (mkAdded
             (setRelationers r
                (<[relId rel := NewRelationer ru dir]> (relationers r)))
             None (S n))) ∧
  (∀ e, e ≠ ErrApi CodeCannotEnterScopeYet →
   selected script = replicate n cannotEnterScopeYet ++ SelChange (Some e) :: rest →
   add r rel dir script = Some (mkAdded r (Some e) (S n))).
Proof.
  intros Hu Hw. split.
  - intros Hs Hstop. unfold add.
    rewrite Hu, Hw, Hs, Hstop, addLoop_retries. cbn. by rewrite Nat.add_0_r.
  - intros e He Hs. unfold add. rewrite Hu, Hw, Hs, addLoop_retries.
    assert (IsCodeCannotEnterScopeYet (Some e) = false) as Hno.
    { destruct e as [| | | | |[]]; try done. }
    cbn [addLoop]. rewrite Hno, Nat.add_0_r. cbn.
    by destruct (stopResult script).
Qed.

Lemma add_retries_until_joined_witness :
  let r := mkRelations ∅ {[4]} in
  let ep := mkEndpoint "db" false true in
  let script :=
    mkAddScript None [cannotEnterScopeYet; cannotEnterScopeYet; SelChange None; SelAbort]
      None in
  add r (mkRelation 4 (inl ep) (inl ep)) (mkState 4 ∅ "") script
  = Some (mkAdded (mkRelations {[4 := NewRelationer ep (mkState 4 ∅ "")]} {[4]})
            None 3).
Proof.
  intros r ep script.
  destruct (add_retries_until_joined r (mkRelation 4 (inl ep) (inl ep))
              (mkState 4 ∅ "") script ep 2 [SelAbort] eq_refl eq_refl)
    as [Hjoined _].
  rewrite Hjoined by reflexivity. reflexivity.
Defined.

(** ** Committing the broken hook *)

Lemma CommitHook_broken r hookInfo persist relationer :
  relationers r !! RelationId hookInfo = Some relationer →
  InfoKind hookInfo = RelationBroken →
  (CommitHook r hookInfo persist).2 = persist ∧
  relationers (CommitHook r hookInfo persist).1 =
    delete (RelationId hookInfo) (relationers r).
Proof.
  intros Hreg Hkind. unfold CommitHook. rewrite Hkind, Hreg. cbn.
  by destruct persist.
Qed.

(** C9: after [CommitHook] of a [RelationBroken] hook for a registered
    relation id has succeeded, the id is unknown: [Name] fails with the
    unknown-relation error, and so does [PrepareHook] for every relation
    hook of that id ([PrepareHook] fails for any hook of that id). *)
Theorem broken_commit_unregisters
    (prepare : Relationer → Info → string + error) (r r' : relations)
    (hookInfo : Info) (persist : option error) (relationer : Relationer) :
  relationers r !! RelationId hookInfo = Some relationer →
  InfoKind hookInfo = RelationBroken →
  CommitHook r hookInfo persist = (r', None) →
  Name r' (RelationId hookInfo) = inr (ErrUnknownRelation (RelationId hookInfo)) ∧
  ∀ later : Info, RelationId later = RelationId hookInfo →
    (∃ e, PrepareHook prepare r' later = inr e) ∧
    (IsRelation (InfoKind later) = true →
     PrepareHook prepare r' later = inr (ErrUnknownRelation (RelationId hookInfo))).
Proof.
  intros Hreg Hkind Hcommit.
  destruct (CommitHook_broken r hookInfo persist _ Hreg Hkind) as [_ Hset].
  rewrite Hcommit in Hset. cbn in Hset.
  assert (relationers r' !! RelationId hookInfo = None) as Hgone
    by (rewrite Hset; apply lookup_delete_eq).
  split.
  - unfold Name. by rewrite Hgone.
  - intros later Hid. unfold PrepareHook. rewrite Hid, Hgone.
    destruct (IsRelation (InfoKind later)); cbn; split; eauto. done.
Qed.

Lemma broken_commit_unregisters_witness :
  let ep := mkEndpoint "db" false true in
  let r := mkRelations {[7 := mkRelationer ep (mkState 7 ∅ "") true]} {[7]} in
  Name (CommitHook r (mkInfo RelationBroken 7 "" 0) None).1 7
  = inr (ErrUnknownRelation 7).
Proof.
  intros ep r.
  apply (broken_commit_unregisters (λ _ _, inl "db-relation-broken") r _
           (mkInfo RelationBroken 7 "" 0) None
           (mkRelationer ep (mkState 7 ∅ "") true));
    reflexivity.
Defined.

(** C10: for a [RelationBroken] hook of a registered relation id,
    [CommitHook] deletes the entry before the relationer commits: whatever
    the commit returns, an error included, is returned with the relationer
    no longer registered. *)
Theorem broken_commit_deletes_first (r : relations) (hookInfo : Info)
    (persist : option error) (relationer : Relationer) :
  relationers r !! RelationId hookInfo = Some relationer →
  InfoKind hookInfo = RelationBroken →
  (CommitHook r hookInfo persist).2 = (RelationerCommitHook persist relationer hookInfo).2 ∧
  (RelationerCommitHook persist relationer hookInfo).2 = persist ∧
  relationers (CommitHook r hookInfo persist).1 !! RelationId hookInfo = None.
Proof.
  intros Hreg Hkind.
  destruct (CommitHook_broken r hookInfo persist _ Hreg Hkind) as [Herr Hset].
  rewrite Herr, Hset.
  split; [by destruct persist|]. split; [by destruct persist|].
  apply lookup_delete_eq.
Qed.

Lemma broken_commit_deletes_first_witness :
  let ep := mkEndpoint "db" false true in
  let r := mkRelations {[7 := mkRelationer ep (mkState 7 {["u/0" := 1]} "") true]} {[7]} in
  let failed := Some (ErrApi (CodeOther "disk full")) in
  (CommitHook r (mkInfo RelationBroken 7 "" 0) failed).2 = failed ∧
  relationers (CommitHook r (mkInfo RelationBroken 7 "" 0) failed).1 !! 7 = None.
Proof.
  intros ep r failed.
  destruct (broken_commit_deletes_first r (mkInfo RelationBroken 7 "" 0) failed
              (mkRelationer ep (mkState 7 {["u/0" := 1]} "") true))
    as (Herr & Hsame & Hgone); [reflexivity..|].
  split; [by rewrite Herr, Hsame|exact Hgone].
Defined.

(** ** Dying relations *)

Lemma relationHook_dying remoteLife relationer relationSnapshot :
  remoteLife = Dying ∨ SnapLife relationSnapshot = Dying →
  relationHook remoteLife relationer relationSnapshot =
  nextRelationHook (dirState relationer) emptySnapshot true.
Proof. intros Hd. unfold relationHook. by rewrite bool_decide_true. Qed.

(** A hook returned by the loop of [NextHook] is the hook of a visited
    relation whose relationer is registered and not implicit. *)
Lemma nextHookScan_hook r remoteLife remote info :
  nextHookScan r remoteLife remote = inl info →
  ∃ id relationSnapshot relationer,
    (id, relationSnapshot) ∈ remote ∧
    relationers r !! id = Some relationer ∧
    IsImplicit relationer = false ∧
    relationHook remoteLife relationer relationSnapshot = inl info.
Proof.
  induction remote as [|[id snap] rest IH]; cbn; [done|].
  intros Hscan.
  assert (nextHookScan r remoteLife rest = inl info →
          ∃ id0 s0 rl0, (id0, s0) ∈ (id, snap) :: rest ∧
            relationers r !! id0 = Some rl0 ∧ IsImplicit rl0 = false ∧
            relationHook remoteLife rl0 s0 = inl info) as Hrest.
  { intros (id0 & s0 & rl0 & Hin & ?)%IH. exists id0, s0, rl0.
    split; [by apply list_elem_of_further|done]. }
  destruct (relationers r !! id) as [relationer|] eqn:Hreg; [|auto].
  destruct (IsImplicit relationer) eqn:Himp; [auto|].
  destruct (relationHook remoteLife relationer snap) as [h|e] eqn:Hhook.
  - injection Hscan as ->. exists id, snap, relationer.
    split; [apply list_elem_of_here|done].
  - destruct e; auto; discriminate.
Qed.

(** The claim fails on the pending change: for a relation that is dying,
    with the snapshot emptied and [remoteBroken] set, [NextHook] returns
    the [RelationChanged] hook of the pending unit. *)
Lemma dying_relation_replays_pending :
  let ep := mkEndpoint "db" false true in
  let r := mkRelations
             {[1 := mkRelationer ep (mkState 1 {["u/0" := 2]} "u/0") false]} {[1]} in
  let env := λ _ : Z,
    mkUpdateScript (inr (ErrApi CodeNotFound)) None (inr (ErrApi CodeNotFound))
      (mkAddScript None [] None) None None in
  let remote := [(1, mkSnapshot Dying {["u/0" := 2]})] in
  snd <$> NextHook env r Continue Alive remote remote
  = Some (inl (mkInfo RelationChanged 1 "u/0" 0)).
Proof. vm_compute. reflexivity. Qed.

(** C5 (amended): for a relation whose snapshot, or the unit itself, is
    dying, the hook is computed from an empty snapshot with [remoteBroken]
    set; it is never [RelationJoined] and never the no-operation result: it
    is the replay of the pending change when there is one, otherwise the
    departure of a local member, otherwise, with no local member left,
    [RelationBroken].  Every hook [NextHook] returns is computed this way
    for a registered relationer that is not implicit, and [setDying]
    removes an implicit relationer that was set dying. *)
Theorem dying_relation_hooks (env : Z → UpdateScript) (r : relations)
    (remoteLife : Life) :
  (∀ relationer relationSnapshot,
     remoteLife = Dying ∨ SnapLife relationSnapshot = Dying →
     ∃ info,
       relationHook remoteLife relationer relationSnapshot = inl info ∧
       nextRelationHook (dirState relationer) emptySnapshot true = inl info ∧
       InfoKind info ≠ RelationJoined ∧
       let local := dirState relationer in
       (ChangedPending local ≠ "" ∧
          info = mkInfo RelationChanged (StRelationId local) (ChangedPending local) 0) ∨
       (ChangedPending local = "" ∧
          ∃ u v, Members local !! u = Some v ∧
                 info = mkInfo RelationDeparted (StRelationId local) u v) ∨
       (ChangedPending local = "" ∧ Members local = ∅ ∧
          info = mkInfo RelationBroken (StRelationId local) "" 0)) ∧
  (∀ localKind visitUpdate visitScan r' info,
     NextHook env r localKind remoteLife visitUpdate visitScan = Some (r', inl info) →
     ∃ id relationSnapshot relationer,
       (id, relationSnapshot) ∈ visitScan ∧
       relationers r' !! id = Some relationer ∧
       IsImplicit relationer = false ∧
       relationHook remoteLife relationer relationSnapshot = inl info) ∧
  (∀ id relationer,
     relationers r !! id = Some relationer →
     IsImplicit relationer = true →
     setDyingResult (env id) = None →
     (setDying env r id).2 = None ∧
     relationers (setDying env r id).1 !! id = None).
Proof.
  split; [|split].
  - intros relationer snap Hd. rewrite (relationHook_dying _ _ _ Hd).
    destruct (nextRelationHook (dirState relationer) emptySnapshot true)
      as [info|e] eqn:Hnext; [|by apply error_is_noop in Hnext as [_ ?]].
    exists info. split; [done|]. split; [done|].
    apply nextRelationHook_origin in Hnext.
    destruct Hnext as [Hp|u v Hp Hl Hr|Hp _ Hnone|u v Hp Hb|u v lv Hp Hb];
      try discriminate; (split; [done|]); cbn zeta.
    + left. split; [done|]. unfold version_at. cbn. by rewrite lookup_empty.
    + right. left. eauto.
    + right. right. split; [done|]. split; [|done].
      apply map_eq. intros u. rewrite lookup_empty.
      destruct (Members (dirState relationer) !! u) as [v|] eqn:Hl; [|done].
      exfalso. apply (Hnone u). split; [eauto|apply lookup_empty].
  - intros localKind vu vs r' info. unfold NextHook.
    destruct (update env r vu) as [[r1 [e|]]|]; [discriminate| |discriminate].
    case_bool_decide; [discriminate|].
    intros [= <- Hscan]. by apply nextHookScan_hook in Hscan.
  - intros id relationer Hreg Himp Hset. unfold setDying.
    rewrite Hreg, Hset, Himp. cbn. split; [done|apply lookup_delete_eq].
Qed.

Lemma dying_relation_hooks_witness :
  let ep := mkEndpoint "juju-info" true true in
  let r := mkRelations {[2 := mkRelationer ep (mkState 2 ∅ "") false]} {[2]} in
  let env := λ _ : Z,
    mkUpdateScript (inr (ErrApi CodeNotFound)) None (inr (ErrApi CodeNotFound))
      (mkAddScript None [] None) None None in
  relationers (setDying env r 2).1 !! 2 = None.
Proof.
  intros ep r env.
  destruct (dying_relation_hooks env r Alive) as (_ & _ & Hdiscard).
  apply (Hdiscard 2 (mkRelationer ep (mkState 2 ∅ "") false)); reflexivity.
Defined.

(** ** Failure of [add] during [update] *)

Lemma addLoop_error_unregistered r id relationer received calls out :
  addLoop r id relationer received calls = Some out →
  addedErr out ≠ None → addedSet out = r.
Proof.
  revert calls. induction received as [|[| |joined] rest IH]; intros calls; cbn.
  - done.
  - by intros [= <-].
  - by intros [= <-].
  - destruct (IsCodeCannotEnterScopeYet joined); [apply IH|].
    destruct joined; by intros [= <-].
Qed.

(** When the watcher stops cleanly, an [add] that returns an error has
    registered nothing. *)
Lemma add_error_unregistered r rel dir script out :
  add r rel dir script = Some out →
  stopResult script = None →
  addedErr out ≠ None → addedSet out = r.
Proof.
  unfold add. intros Hadd Hstop. revert Hadd.
  destruct (relUnit rel) as [ru|e]; [|by intros [= <-]].
  destruct (watchResult script); [by intros [= <-]|].
  destruct (addLoop _ _ _ _ _) as [out0|] eqn:Hloop; [|done].
  rewrite Hstop. intros [= <-].
  by eapply addLoop_error_unregistered.
Qed.

(** The claim fails on the error it singles out: [update] removes the
    directory and goes on; here it returns no error at all. *)
Lemma update_swallows_cannot_enter_scope :
  let ep := mkEndpoint "db" false true in
  let env := λ _ : Z,
    mkUpdateScript (inl (mkRelation 1 (inl ep) (inl ep))) None
      (inl (mkState 1 ∅ ""))
      (mkAddScript None [SelChange (Some (ErrApi CodeCannotEnterScope))] None)
      None None in
  update env (mkRelations ∅ ∅) [(1, mkSnapshot Alive ∅)]
  = Some (mkRelations ∅ ∅, None).
Proof. vm_compute. reflexivity. Qed.

(** C6 (amended): when [add] fails for a newly seen alive relation,
    [update] removes the state directory; with the cannot-enter-scope error
    it then goes on with the remaining relations, and returns an error for
    this relation only if the removal failed; with any other error it
    returns that error; and when the watcher stopped cleanly the failed
    [add] has registered no relationer. *)
Theorem update_add_failure (env : Z → UpdateScript) (r : relations) (id : Z)
    (relationSnapshot : RelationSnapshot) (rest : list (Z * RelationSnapshot))
    (rel : Relation) (ep : Endpoint) (dir : State) (out : Added)
    (addErr : error) :
  relationers r !! id = None →
  SnapLife relationSnapshot = Alive →
  relationById (env id) = inl rel →
  readCharmDir (env id) = None →
  relEndpoint rel = inl ep →
  epImplementedBy ep = true →
  readStateDir (env id) = inl dir →
  add (withStateDir id r) rel dir (adding (env id)) = Some out →
  addedErr out = Some addErr →
  (stopResult (adding (env id)) = None →
   relationers (addedSet out) = relationers r) ∧
  match removeResult (env id) with
  | None =>
      (id ∉ stateDirs (withoutStateDir id (addedSet out))) ∧
      update env r ((id, relationSnapshot) :: rest) =
        (if IsCodeCannotEnterScope addErr
         then update env (withoutStateDir id (addedSet out)) rest
         else Some (withoutStateDir id (addedSet out), Some addErr))
  | Some removeErr =>
      update env r ((id, relationSnapshot) :: rest) =
        (if IsCodeCannotEnterScope addErr
         then Some (addedSet out, Some removeErr)
         else Some (addedSet out, Some addErr))
  end.
Proof.
  intros Hreg Hlife Hrel Hcharm Hep Himpl Hdir Hadd Herr. split.
  - intros Hstop.
    rewrite (add_error_unregistered _ _ _ _ _ Hadd Hstop); [done|].
    by rewrite Herr.
  - cbn [update]. rewrite Hreg, Hlife, Hrel, Hcharm, Hep, Himpl, Hdir. cbn.
    rewrite Hadd, Herr.
    destruct (removeResult (env id)) as [removeErr|].
    + by destruct (IsCodeCannotEnterScope addErr).
    + split; [cbn; apply not_elem_of_difference; right; by apply elem_of_singleton|].
      by destruct (IsCodeCannotEnterScope addErr).
Qed.

Lemma update_add_failure_witness :
  let ep := mkEndpoint "db" false true in
  let env := λ _ : Z,
    mkUpdateScript (inl (mkRelation 1 (inl ep) (inl ep))) None
      (inl (mkState 1 ∅ ""))
      (mkAddScript None [SelChange (Some (ErrApi (CodeOther "boom")))] None)
      None None in
  update env (mkRelations ∅ ∅) [(1, mkSnapshot Alive ∅); (2, mkSnapshot Alive ∅)]
  = Some (mkRelations ∅ ((∅ ∪ {[1]}) ∖ {[1]}), Some (ErrApi (CodeOther "boom"))).
Proof.
  intros ep env.
  destruct (update_add_failure env (mkRelations ∅ ∅) 1 (mkSnapshot Alive ∅)
              [(2, mkSnapshot Alive ∅)] (mkRelation 1 (inl ep) (inl ep)) ep
              (mkState 1 ∅ "")
              (mkAdded (withStateDir 1 (mkRelations ∅ ∅))
                 (Some (ErrApi (CodeOther "boom"))) 1)
              (ErrApi (CodeOther "boom")))
    as [_ Hupdate]; [reflexivity..|].
  destruct Hupdate as [_ ->]. vm_compute. reflexivity.
Defined.

(** The case the amended claim leaves out: the relationer joined, then
    stopping the watcher failed; [add] returns that error with the
    relationer registered. *)
Lemma add_stop_error_after_join :
  let ep := mkEndpoint "db" false true in
  let stopped := Some (ErrApi (CodeOther "watcher died")) in
  add (mkRelations ∅ {[1]}) (mkRelation 1 (inl ep) (inl ep)) (mkState 1 ∅ "")
      (mkAddScript None [SelChange None] stopped)
  = Some (mkAdded (mkRelations {[1 := NewRelationer ep (mkState 1 ∅ "")]} {[1]})
            stopped 1).
Proof. vm_compute. reflexivity. Qed.

(** ** Further properties of [nextRelationHook] *)

Lemma in_sync_iff (lm rm : gmap string Z) :
  lm = rm ↔
  (∀ u, ¬ departs lm rm u) ∧ (∀ u, ¬ joins lm rm u) ∧ (∀ u, ¬ changes lm rm u).
Proof.
  split.
  - intros ->. repeat split; intros u.
    + intros [[v Hv] Hn]. congruence.
    + intros [[v Hv] Hn]. congruence.
    + intros (rv & lv & Hr & Hl & Hne). congruence.
  - intros (Hnd & Hnj & Hnc). apply map_eq. intros u.
    destruct (lm !! u) as [lv|] eqn:Hl, (rm !! u) as [rv|] eqn:Hr; try done.
    + destruct (decide (rv = lv)) as [->|Hne]; [done|].
      destruct (Hnc u). exists rv, lv. eauto.
    + destruct (Hnd u). split; eauto.
    + destruct (Hnj u). split; eauto.
Qed.

(** X1: every hook [nextRelationHook] returns is justified by the two
    states: it carries the relation id of the local state and a relation
    kind; a departed unit is a local member the remote state lacks, with its
    local version; a joined unit is a remote member unknown locally, with
    its remote version, and only without [remoteBroken]; a changed unit is
    the pending one, or, without [remoteBroken], a member of both with
    different versions; the broken hook names no unit and is returned only
    with [remoteBroken] once every local member is a remote one. *)
Theorem hook_justified (local : State) (remote : RelationSnapshot)
    (remoteBroken : bool) (info : Info) :
  nextRelationHook local remote remoteBroken = inl info →
  let lm := Members local in
  let rm := SnapMembers remote in
  let u := RemoteUnit info in
  RelationId info = StRelationId local ∧
  IsRelation (InfoKind info) = true ∧
  match InfoKind info with
  | RelationDeparted =>
      ChangedPending local = "" ∧
      lm !! u = Some (ChangeVersion info) ∧ rm !! u = None
  | RelationBroken =>
      ChangedPending local = "" ∧ remoteBroken = true ∧
      u = "" ∧ ChangeVersion info = 0 ∧
      ∀ w, is_Some (lm !! w) → is_Some (rm !! w)
  | RelationJoined =>
      ChangedPending local = "" ∧ remoteBroken = false ∧
      rm !! u = Some (ChangeVersion info) ∧ lm !! u = None
  | RelationChanged =>
      (ChangedPending local ≠ "" ∧ u = ChangedPending local ∧
       ChangeVersion info = version_at rm u) ∨
      (ChangedPending local = "" ∧ remoteBroken = false ∧
       rm !! u = Some (ChangeVersion info) ∧
       ∃ lv, lm !! u = Some lv ∧ lv ≠ ChangeVersion info)
  | OtherKind _ => False
  end.
Proof.
  intros Hnext. apply nextRelationHook_origin in Hnext.
  destruct Hnext as [Hp|u v Hp Hl Hr|Hp Hb Hnone|u v Hp Hb Hr Hl|u v lv Hp Hb Hr Hl Hne];
    cbn; repeat (split; [done|]).
  - left. done.
  - done.
  - repeat (split; [done|]). intros w Hw.
    destruct (SnapMembers remote !! w) eqn:Hr; [eauto|].
    destruct (Hnone w). by split.
  - done.
  - right. repeat (split; [done|]). exists lv. split; [done|congruence].
Qed.

Lemma hook_justified_witness :
  let local := mkState 5 {["a/0" := 1; "b/0" := 2]} "" in
  let remote := mkSnapshot Alive {["a/0" := 1; "c/0" := 7]} in
  local.(Members) !! "b/0" = Some 2 ∧ remote.(SnapMembers) !! "b/0" = None.
Proof.
  intros local remote.
  destruct (hook_justified local remote false (mkInfo RelationDeparted 5 "b/0" 2))
    as (_ & _ & _ & Hl & Hr); [vm_compute; reflexivity|].
  split; [exact Hl|exact Hr].
Defined.

(** X2: [nextRelationHook] returns an error exactly when there is nothing
    to do: the error is [ErrNoOperation], no change is pending,
    [remoteBroken] is not set, and the local members are the remote members
    with the same versions. *)
Theorem noop_iff_in_sync (local : State) (remote : RelationSnapshot)
    (remoteBroken : bool) (e : error) :
  nextRelationHook local remote remoteBroken = inr e ↔
  e = ErrNoOperation ∧ ChangedPending local = "" ∧ remoteBroken = false ∧
  Members local = SnapMembers remote.
Proof.
  split.
  - intros Hnext. pose proof (error_is_noop _ _ _ _ Hnext) as [-> ->].
    assert (ChangedPending local = "") as Hp.
    { destruct (decide (ChangedPending local = "")) as [|Hne]; [done|].
      revert Hnext. unfold nextRelationHook. by rewrite bool_decide_true. }
    repeat (split; [done|]). apply in_sync_iff.
    rewrite no_pending_unfold in Hnext by done. cbn zeta in Hnext.
    destruct (list_find (departs _ _) _) as [[]|] eqn:Hd; [done|].
    destruct (list_find (joins _ _) _) as [[]|] eqn:Hj; [done|].
    destruct (list_find (changes _ _) _) as [[]|] eqn:Hc; [done|].
    repeat split; intros u Hu.
    + eapply (find_none_all _ _ _ Hd); [|done].
      destruct Hu as [Hu _]. apply elem_of_union_l, elem_of_dom, Hu.
    + eapply (find_none_all _ _ _ Hj); [|done].
      destruct Hu as [Hu _]. apply elem_of_union_r, elem_of_dom, Hu.
    + eapply (find_none_all _ _ _ Hc); [|done].
      destruct Hu as (rv & lv & Hr & _). apply elem_of_union_r, elem_of_dom. eauto.
  - intros (-> & Hp & -> & Hsync). apply in_sync_iff in Hsync as (? & ? & ?).
    by apply precedence_nothing.
Qed.

(** ** Further properties of [add] *)

Lemma addLoop_outcome r id relationer received calls out :
  addLoop r id relationer received calls = Some out →
  (calls ≤ joinCalls out ≤ calls + length received)%nat ∧
  match addedErr out with
  | Some _ => addedSet out = r
  | None =>
      addedSet out = setRelationers r (<[id := relationer]> (relationers r)) ∧
      (calls < joinCalls out)%nat
  end.
Proof.
  revert calls. induction received as [|[| |joined] rest IH]; intros calls; cbn.
  - done.
  - intros [= <-]. cbn. split; [lia|done].
  - intros [= <-]. cbn. split; [lia|done].
  - destruct (IsCodeCannotEnterScopeYet joined).
    + intros Hrec. apply IH in Hrec as [Hcalls Hset]. split; [lia|].
      destruct (addedErr out); [done|]. split; [apply Hset|lia].
    + destruct joined; intros [= <-]; cbn; (split; [lia|]); [done|].
      split; [done|lia].
Qed.

(** X3: [add] touches nothing but the entry of the relation it is given:
    the state directories and every other relationer are as before, and the
    entry itself is either as before or the new relationer built from the
    relation unit and the directory. *)
Theorem add_frame (r : relations) (rel : Relation) (dir : State)
    (script : AddScript) (out : Added) :
  add r rel dir script = Some out →
  stateDirs (addedSet out) = stateDirs r ∧
  (∀ id, id ≠ relId rel →
     relationers (addedSet out) !! id = relationers r !! id) ∧
  (relationers (addedSet out) !! relId rel = relationers r !! relId rel ∨
   ∃ ru, relUnit rel = inl ru ∧
         relationers (addedSet out) !! relId rel = Some (NewRelationer ru dir)).
Proof.
  unfold add. destruct (relUnit rel) as [ru|e]; [|intros [= <-]; auto].
  destruct (watchResult script); [intros [= <-]; auto|].
  destruct (addLoop _ _ _ _ _) as [out0|] eqn:Hloop; [|done].
  apply addLoop_outcome in Hloop as [_ Hset].
  assert (stateDirs (addedSet out0) = stateDirs r ∧
          (∀ id, id ≠ relId rel →
             relationers (addedSet out0) !! id = relationers r !! id) ∧
          (relationers (addedSet out0) !! relId rel = relationers r !! relId rel ∨
           ∃ ru0, (inl ru : Endpoint + error) = inl ru0 ∧
             relationers (addedSet out0) !! relId rel
             = Some (NewRelationer ru0 dir))) as Hframe.
  { destruct (addedErr out0); [rewrite Hset; auto|].
    destruct Hset as [-> _]. cbn. split; [done|]. split.
    - intros id Hid. by rewrite lookup_insert_ne.
    - right. exists ru. split; [done|apply lookup_insert_eq]. }
  destruct (stopResult script), (addedErr out0); by intros [= <-].
Qed.

Lemma add_frame_witness :
  let ep := mkEndpoint "db" false true in
  let other := mkRelationer ep (mkState 9 {["x/0" := 3]} "") false in
  let r := mkRelations {[9 := other]} {[4; 9]} in
  let joined := NewRelationer ep (mkState 4 ∅ "") in
  let r' := mkRelations (<[4 := joined]> {[9 := other]}) {[4; 9]} in
  relationers r' !! 9 = relationers r !! 9.
Proof.
  intros ep other r joined r'.
  destruct (add_frame r (mkRelation 4 (inl ep) (inl ep)) (mkState 4 ∅ "")
              (mkAddScript None [cannotEnterScopeYet; SelChange None] None)
              (mkAdded r' None 2))
    as (_ & Hothers & _); [vm_compute; reflexivity|].
  apply (Hothers 9). discriminate.
Defined.

(** X4: when [add] returns no error, the relation is registered under its
    id with a relationer that holds the given directory and is not dying,
    and [Join] was called at least once; [Join] is never called more often
    than changes were received, and not at all when [rel.Unit] or
    [caasUnit.Watch] failed. *)
Theorem add_success_registers (r : relations) (rel : Relation) (dir : State)
    (script : AddScript) (out : Added) :
  add r rel dir script = Some out →
  (joinCalls out ≤ length (selected script))%nat ∧
  ((∃ e, relUnit rel = inr e) ∨ is_Some (watchResult script) →
   joinCalls out = 0%nat ∧ addedSet out = r) ∧
  (addedErr out = None →
   ∃ ru, relUnit rel = inl ru ∧
         relationers (addedSet out) !! relId rel = Some (mkRelationer ru dir false) ∧
         (1 ≤ joinCalls out)%nat).
Proof.
  unfold add. destruct (relUnit rel) as [ru|e].
  2:{ intros [= <-]. cbn. split; [lia|]. split; [done|done]. }
  destruct (watchResult script) as [e|].
  { intros [= <-]. cbn. split; [lia|]. split; [done|done]. }
  destruct (addLoop _ _ _ _ _) as [out0|] eqn:Hloop; [|done].
  apply addLoop_outcome in Hloop as [Hcalls Hset].
  intros Hout.
  assert (joinCalls out = joinCalls out0 ∧ addedSet out = addedSet out0 ∧
          (addedErr out = None → addedErr out0 = None)) as (Hj & Hs & He).
  { destruct (stopResult script), (addedErr out0) eqn:He0;
      injection Hout as <-; cbn; rewrite ?He0; auto. }
  rewrite Hj, Hs. split; [lia|]. split.
  - intros [[e [=]]|[e [=]]].
  - intros Hnil%He. rewrite Hnil in Hset. destruct Hset as [-> Hlt].
    exists ru. split; [done|]. split; [apply lookup_insert_eq|lia].
Qed.

Lemma add_success_registers_witness :
  let ep := mkEndpoint "db" false true in
  let joined := mkRelationer ep (mkState 4 ∅ "") false in
  relationers (mkRelations {[4 := joined]} ∅) !! 4 = Some joined.
Proof.
  intros ep joined.
  destruct (add_success_registers (mkRelations ∅ ∅)
              (mkRelation 4 (inl ep) (inl ep)) (mkState 4 ∅ "")
              (mkAddScript None [SelChange None] None)
              (mkAdded (mkRelations {[4 := joined]} ∅) None 1))
    as (_ & _ & Hreg); [vm_compute; reflexivity|].
  destruct (Hreg eq_refl) as (ru & Hru & Hlook & _).
  injection Hru as <-. exact Hlook.
Defined.

(** X5: when the watcher's channel is closed while [add] waits, after any
    number of transient rejections, [add] returns the unit-watcher-closed
    error, has called [Join] once per rejection and registers nothing,
    whatever stopping the watcher returns. *)
Theorem add_watcher_closed (r : relations) (rel : Relation) (dir : State)
    (script : AddScript) (ru : Endpoint) (n : nat) (rest : list Selected) :
  relUnit rel = inl ru →
  watchResult script = None →
  selected script = replicate n cannotEnterScopeYet ++ SelClosed :: rest →
  add r rel dir script = Some (mkAdded r (Some ErrUnitWatcherClosed) n).
Proof.
  intros Hu Hw Hs. unfold add. rewrite Hu, Hw, Hs, addLoop_retries. cbn.
  rewrite Nat.add_0_r. by destruct (stopResult script).
Qed.

Lemma add_watcher_closed_witness :
  let ep := mkEndpoint "db" false true in
  let r := mkRelations ∅ {[4]} in
  add r (mkRelation 4 (inl ep) (inl ep)) (mkState 4 ∅ "")
    (mkAddScript None [cannotEnterScopeYet; SelClosed] None)
  = Some (mkAdded r (Some ErrUnitWatcherClosed) 1).
Proof.
  intros ep r.
  apply (add_watcher_closed r _ _ _ ep 1 []); reflexivity.
Defined.

(** X6: the deferred [worker.Stop] never hides an error of [add]: when
    [add] fails with the watcher stopping cleanly, it fails in the same way,
    with the same relation set, whatever stopping the watcher returns. *)
Theorem add_error_not_masked (r : relations) (rel : Relation) (dir : State)
    (script : AddScript) (out : Added) (e : error) (stop : option error) :
  stopResult script = None →
  add r rel dir script = Some out →
  addedErr out = Some e →
  add r rel dir (mkAddScript (watchResult script) (selected script) stop)
  = Some out.
Proof.
  intros Hstop. unfold add. cbn [watchResult selected stopResult].
  destruct (relUnit rel) as [ru|e0]; [|done].
  destruct (watchResult script); [done|].
  destruct (addLoop _ _ _ _ _) as [out0|]; [|done].
  rewrite Hstop. intros [= <-] He. rewrite He. by destruct stop.
Qed.

Lemma add_error_not_masked_witness :
  let ep := mkEndpoint "db" false true in
  let r := mkRelations ∅ {[4]} in
  let failed := Some (ErrApi CodeCannotEnterScope) in
  add r (mkRelation 4 (inl ep) (inl ep)) (mkState 4 ∅ "")
    (mkAddScript None [SelChange failed] (Some ErrUnitWatcherClosed))
  = Some (mkAdded r failed 1).
Proof.
  intros ep r failed.
  apply (add_error_not_masked r _ _
           (mkAddScript None [SelChange failed] None) _
           (ErrApi CodeCannotEnterScope) (Some ErrUnitWatcherClosed));
    reflexivity.
Defined.

(** X7: when [Join] succeeds and stopping the watcher then fails, [add]
    returns the error of the stop although the relationer is registered. *)
Theorem add_stop_error_keeps_registration (r : relations) (rel : Relation)
    (dir : State) (script : AddScript) (ru : Endpoint) (n : nat)
    (rest : list Selected) (e : error) :
  relUnit rel = inl ru →
  watchResult script = None →
  selected script = replicate n cannotEnterScopeYet ++ SelChange None :: rest →
  stopResult script = Some e →
  add r rel dir script =
    Some (mkAdded
            (setRelationers r
               (<[relId rel := NewRelationer ru dir]> (relationers r)))
            (Some e) (S n)).
Proof.
  intros Hu Hw Hs Hstop. unfold add.
  rewrite Hu, Hw, Hs, Hstop, addLoop_retries. cbn. by rewrite Nat.add_0_r.
Qed.

Lemma add_stop_error_keeps_registration_witness :
  let ep := mkEndpoint "db" false true in
  let stopped := ErrApi (CodeOther "watcher died") in
  add (mkRelations ∅ ∅) (mkRelation 1 (inl ep) (inl ep)) (mkState 1 ∅ "")
      (mkAddScript None [cannotEnterScopeYet; SelChange None] (Some stopped))
  = Some (mkAdded (mkRelations {[1 := NewRelationer ep (mkState 1 ∅ "")]} ∅)
            (Some stopped) 2).
Proof.
  intros ep stopped.
  rewrite (add_stop_error_keeps_registration _ _ _ _ ep 1 [] stopped);
    reflexivity.
Defined.

(** ** Further properties of [PrepareHook] and [CommitHook] *)

(** X8: a hook whose kind is not a relation kind, or whose relation id is
    not registered, is refused by [PrepareHook] and by [CommitHook] with the
    same error, the kind being tested first, and [CommitHook] leaves the
    relation set as it was. *)
Theorem invalid_hook_rejected (prepare : Relationer → Info → string + error)
    (r : relations) (hookInfo : Info) (persist : option error) :
  IsRelation (InfoKind hookInfo) = false ∨
  relationers r !! RelationId hookInfo = None →
  let e := if IsRelation (InfoKind hookInfo)
           then ErrUnknownRelation (RelationId hookInfo)
           else ErrNotRelationHook hookInfo in
  PrepareHook prepare r hookInfo = inr e ∧
  CommitHook r hookInfo persist = (r, Some e).
Proof.
  intros Hbad. unfold PrepareHook, CommitHook.
  destruct (IsRelation (InfoKind hookInfo)); cbn; [|done].
  destruct Hbad as [Hk|Hreg]; [done|]. by rewrite Hreg.
Qed.

Lemma invalid_hook_rejected_witness :
  let r := mkRelations ∅ ∅ in
  let hookInfo := mkInfo (OtherKind "install") 3 "" 0 in
  CommitHook r hookInfo None = (r, Some (ErrNotRelationHook hookInfo)).
Proof.
  intros r hookInfo.
  destruct (invalid_hook_rejected (λ _ _, inl "") r hookInfo None) as [_ Hc].
  - right. reflexivity.
  - exact Hc.
Defined.

(** X9: [CommitHook] never touches the relationer of another relation id,
    and only a [RelationBroken] hook changes which relation ids are
    registered: after a hook of another kind the same ids are registered,
    after a [RelationBroken] hook the id of the hook is not. *)
Theorem CommitHook_frame (r : relations) (hookInfo : Info)
    (persist : option error) :
  let r' := (CommitHook r hookInfo persist).1 in
  (∀ id, id ≠ RelationId hookInfo →
     relationers r' !! id = relationers r !! id) ∧
  (InfoKind hookInfo ≠ RelationBroken →
     dom (relationers r') = dom (relationers r)) ∧
  (InfoKind hookInfo = RelationBroken →
     dom (relationers r') = dom (relationers r) ∖ {[RelationId hookInfo]}).
Proof.
  unfold CommitHook.
  destruct (IsRelation (InfoKind hookInfo)) eqn:Hrel; cbn.
  2:{ split; [done|]. split; [done|]. intros Hk. by rewrite Hk in Hrel. }
  destruct (relationers r !! RelationId hookInfo) as [relationer|] eqn:Hreg;
    cbn.
  2:{ split; [done|]. split; [done|]. intros _.
      apply not_elem_of_dom in Hreg. symmetry. apply difference_disjoint_L.
      by apply disjoint_singleton_r. }
  case_bool_decide as Hk; cbn.
  - split; [|split; [done|]].
    + intros id Hid. by rewrite lookup_delete_ne.
    + intros _. apply dom_delete_L.
  - split; [|split; [|done]].
    + intros id Hid. by rewrite lookup_insert_ne.
    + intros _. rewrite dom_insert_L.
      apply subseteq_union_1_L, singleton_subseteq_l, elem_of_dom. eauto.
Qed.

(** ** Further properties of [update] *)

Lemma update_cons env r id relationSnapshot rest :
  update env r ((id, relationSnapshot) :: rest) =
  match updateOne env r id relationSnapshot with
  | None => None
  | Some (r', Some e) => Some (r', Some e)
  | Some (r', None) => update env r' rest
  end.
Proof.
  cbn [update]. unfold updateOne.
  destruct (relationers r !! id).
  { case_bool_decide; [|done]. by destruct (setDying env r id) as [r' [e|]]. }
  case_bool_decide; [done|].
  destruct (relationById (env id)) as [rel|e];
    [|by destruct (IsCodeNotFoundOrCodeUnauthorized e)].
  destruct (readCharmDir (env id)); [done|].
  destruct (relEndpoint rel) as [ep|]; [|done].
  destruct (negb (epImplementedBy ep)); [done|].
  destruct (readStateDir (env id)) as [dir|]; [|done].
  destruct (add _ _ _ _) as [out|]; [|done].
  destruct (addedErr out) as [addErr|]; [|done].
  destruct (removeResult (env id)), (IsCodeCannotEnterScope addErr); done.
Qed.

(** What [add] does to the relation set. *)
Lemma add_effect r rel dir script out :
  add r rel dir script = Some out →
  stateDirs (addedSet out) = stateDirs r ∧
  (relationers (addedSet out) = relationers r ∨
   ∃ ru, relUnit rel = inl ru ∧
         relationers (addedSet out) =
         <[relId rel := NewRelationer ru dir]> (relationers r)) ∧
  (addedErr out = None →
   ∃ ru, relUnit rel = inl ru ∧
         relationers (addedSet out) =
         <[relId rel := NewRelationer ru dir]> (relationers r)).
Proof.
  unfold add. destruct (relUnit rel) as [ru|e];
    [|intros [= <-]; cbn; split; [done|split; [by left|done]]].
  destruct (watchResult script);
    [intros [= <-]; cbn; split; [done|split; [by left|done]]|].
  destruct (addLoop _ _ _ _ _) as [out0|] eqn:Hloop; [|done].
  apply addLoop_outcome in Hloop as [_ Hset]. intros Hout.
  assert (addedSet out = addedSet out0 ∧
          (addedErr out = None → addedErr out0 = None)) as [-> He].
  { destruct (stopResult script), (addedErr out0) eqn:He0;
      injection Hout as <-; cbn; rewrite ?He0; auto. }
  destruct (addedErr out0).
  - rewrite Hset. split; [done|]. split; [by left|]. by intros ?%He.
  - destruct Hset as [-> _]. cbn. split; [done|]. split; eauto.
Qed.

(** One step of [update], seen from a relation id [id']. *)
Lemma updateOne_effect env r id relationSnapshot r' e :
  answers_by_id env →
  updateOne env r id relationSnapshot = Some (r', e) →
  (∀ id', id' ≠ id →
     relationers r' !! id' = relationers r !! id' ∧
     (id' ∈ stateDirs r' ↔ id' ∈ stateDirs r)) ∧
  match relationers r !! id with
  | Some relationer =>
      (relationers r' !! id = None ∧
       IsImplicit relationer = true ∧ SnapLife relationSnapshot = Dying) ∨
      (∃ relationer', relationers r' !! id = Some relationer' ∧
         ruEndpoint relationer' = ruEndpoint relationer ∧
         dirState relationer' = dirState relationer)
  | None =>
      relationers r' !! id = None ∨
      ∃ rel ru dir,
        relationById (env id) = inl rel ∧ relUnit rel = inl ru ∧
        readStateDir (env id) = inl dir ∧
        relationers r' !! id = Some (NewRelationer ru dir)
  end.
Proof.
  intros Hby. unfold updateOne.
  destruct (relationers r !! id) as [relationer|] eqn:Hreg.
  - case_bool_decide as Hdying.
    + unfold setDying. rewrite Hreg.
      destruct (setDyingResult (env id)).
      { intros [= <- <-]. split; [done|]. right. eauto. }
      destruct (IsImplicit relationer) eqn:Himp; intros [= <- <-]; cbn.
      * split; [intros id' Hne; by rewrite lookup_delete_ne|].
        left. by rewrite lookup_delete_eq.
      * split; [intros id' Hne; by rewrite lookup_insert_ne|].
        right. eexists. by rewrite lookup_insert_eq.
    + intros [= <- <-]. split; [done|]. right. eauto.
  - pose (unchanged := λ res : option (relations * option error),
            ∃ e0, res = Some (r, e0)).
    assert (∀ res, unchanged res → res = Some (r', e) →
              (∀ id', id' ≠ id →
                 relationers r' !! id' = relationers r !! id' ∧
                 (id' ∈ stateDirs r' ↔ id' ∈ stateDirs r)) ∧
              (relationers r' !! id = None ∨
               ∃ rel ru dir,
                 relationById (env id) = inl rel ∧ relUnit rel = inl ru ∧
                 readStateDir (env id) = inl dir ∧
                 relationers r' !! id = Some (NewRelationer ru dir))) as Hsame.
    { intros res [e0 ->] [= <- _]. split; [done|]. by left. }
    case_bool_decide; [apply Hsame; by eexists|].
    destruct (relationById (env id)) as [rel|e0] eqn:Hrel.
    2:{ apply Hsame. destruct (IsCodeNotFoundOrCodeUnauthorized e0); by eexists. }
    destruct (readCharmDir (env id)); [apply Hsame; by eexists|].
    destruct (relEndpoint rel) as [ep|]; [|apply Hsame; by eexists].
    destruct (negb (epImplementedBy ep)); [apply Hsame; by eexists|].
    destruct (readStateDir (env id)) as [dir|] eqn:Hdir;
      [|apply Hsame; by eexists].
    clear Hsame unchanged.
    destruct (add _ _ _ _) as [out|] eqn:Hadd; [|done].
    apply add_effect in Hadd as (Hdirs & Hset & _).
    rewrite (Hby id rel Hrel) in Hset. cbn in Hdirs.
    assert ((∀ id', id' ≠ id →
               relationers (addedSet out) !! id' = relationers r !! id') ∧
            (relationers (addedSet out) !! id = None ∨
             ∃ rel0 ru dir0,
               (inl rel : Relation + error) = inl rel0 ∧ relUnit rel0 = inl ru ∧
               (inl dir : State + error) = inl dir0 ∧
               relationers (addedSet out) !! id = Some (NewRelationer ru dir0)))
      as [Hothers Hid].
    { destruct Hset as [->|(ru & Hru & ->)]; cbn.
      - split; [done|]. by left.
      - split; [intros id' Hne; by rewrite lookup_insert_ne|].
        right. exists rel, ru, dir. by rewrite lookup_insert_eq. }
    assert (∀ id', id' ≠ id →
              (id' ∈ stateDirs (addedSet out) ↔ id' ∈ stateDirs r) ∧
              (id' ∈ stateDirs (addedSet out) ∖ {[id]} ↔ id' ∈ stateDirs r))
      as Hd.
    { intros id' Hne. rewrite Hdirs, elem_of_difference, elem_of_union,
        !elem_of_singleton. tauto. }
    destruct (addedErr out), (removeResult (env id)); intros [= <- <-]; cbn;
      (split; [intros id' Hne; split; [by apply Hothers|by apply Hd]|done]).
Qed.

(** Relation ids that the remote map does not mention. *)
Lemma update_frame_aux (env : Z → UpdateScript) (r r' : relations)
    (remote : list (Z * RelationSnapshot)) (e : option error) (id : Z) :
  answers_by_id env →
  update env r remote = Some (r', e) →
  id ∉ remote.*1 →
  relationers r' !! id = relationers r !! id ∧
  (id ∈ stateDirs r' ↔ id ∈ stateDirs r).
Proof.
  intros Hby. revert r.
  induction remote as [|[id0 snap] rest IH]; intros r; [by intros [= <- _]|].
  rewrite update_cons. cbn [fmap list_fmap fst]. intros Hupd Hnot.
  apply not_elem_of_cons in Hnot as [Hne Hrest].
  destruct (updateOne env r id0 snap) as [[r1 e1]|] eqn:Hone; [|done].
  apply updateOne_effect in Hone as [Hothers _]; [|done].
  destruct (Hothers id Hne) as [Hreg Hdir].
  destruct e1 as [e1|].
  - injection Hupd as <- _. done.
  - destruct (IH r1 Hupd Hrest) as [Hreg' Hdir']. split; [congruence|tauto].
Qed.

(** X10: [update] leaves alone every relation id that the remote map does
    not mention: its relationer, or its absence, and its state directory
    are as before, whether [update] ends with an error or not. *)
Theorem update_frame (env : Z → UpdateScript) (r r' : relations)
    (remote : list (Z * RelationSnapshot)) (e : option error) (id : Z) :
  answers_by_id env →
  update env r remote = Some (r', e) →
  id ∉ remote.*1 →
  relationers r' !! id = relationers r !! id ∧
  (id ∈ stateDirs r' ↔ id ∈ stateDirs r).
Proof. intros Hby Hupd Hnot. by eapply update_frame_aux. Qed.

Lemma update_frame_witness :
  let ep := mkEndpoint "db" false true in
  let env := λ id : Z,
    mkUpdateScript (inl (mkRelation id (inl ep) (inl ep))) None
      (inl (mkState id ∅ "")) (mkAddScript None [SelChange None] None)
      None None in
  let kept := mkRelationer ep (mkState 8 {["u/0" := 1]} "") false in
  let r := mkRelations {[8 := kept]} {[8]} in
  let r' := mkRelations (<[1 := NewRelationer ep (mkState 1 ∅ "")]> {[8 := kept]})
              ({[1]} ∪ {[8]}) in
  relationers r' !! 8 = relationers r !! 8.
Proof.
  intros ep env kept r r'.
  apply (update_frame env r r' [(1, mkSnapshot Alive ∅)] None 8).
  - intros id rel [= <-]. reflexivity.
  - vm_compute. reflexivity.
  - cbn. intros Hin. apply list_elem_of_singleton in Hin. discriminate.
Defined.

(** X11: [update] never rewrites what is known locally about a registered
    relation: after [update] its relationer is registered with the same
    endpoint and the same local state, or it is gone, which happens only to
    an implicit relationer whose relation the remote map shows dying. *)
Theorem update_keeps_local_state (env : Z → UpdateScript) (r r' : relations)
    (remote : list (Z * RelationSnapshot)) (e : option error) (id : Z)
    (relationer : Relationer) :
  answers_by_id env →
  NoDup remote.*1 →
  update env r remote = Some (r', e) →
  relationers r !! id = Some relationer →
  (relationers r' !! id = None ∧ IsImplicit relationer = true ∧
   ∃ relationSnapshot,
     (id, relationSnapshot) ∈ remote ∧ SnapLife relationSnapshot = Dying) ∨
  (∃ relationer', relationers r' !! id = Some relationer' ∧
     ruEndpoint relationer' = ruEndpoint relationer ∧
     dirState relationer' = dirState relationer).
Proof.
  intros Hby. revert r.
  induction remote as [|[id0 snap] rest IH]; intros r Hnd.
  { intros [= <- _] Hreg. right. eauto. }
  rewrite update_cons. cbn [fmap list_fmap fst] in Hnd.
  apply NoDup_cons in Hnd as [Hfresh Hnd]. intros Hupd Hreg.
  destruct (updateOne env r id0 snap) as [[r1 e1]|] eqn:Hone; [|done].
  pose proof (updateOne_effect _ _ _ _ _ _ Hby Hone) as [Hothers Hhere].
  assert (update env r1 rest = Some (r', e) ∨ r1 = r') as Hrest.
  { destruct e1; [right; by injection Hupd as <- _|by left]. }
  destruct (decide (id = id0)) as [->|Hne].
  - rewrite Hreg in Hhere.
    assert (relationers r' !! id0 = relationers r1 !! id0) as Heq.
    { destruct Hrest as [Hrest| <-]; [|done].
      by destruct (update_frame_aux env r1 r' rest e id0 Hby Hrest Hfresh). }
    rewrite Heq. destruct Hhere as [(Hgone & Himp & Hd)|Hkept]; [left|by right].
    repeat (split; [done|]). exists snap. split; [apply list_elem_of_here|done].
  - destruct (Hothers id Hne) as [Hsame _]. rewrite <- Hsame in Hreg.
    destruct Hrest as [Hrest| <-]; [|right; eauto].
    destruct (IH r1 Hnd Hrest Hreg) as [(Hgone & Himp & s & Hin & Hd)|Hkept];
      [left|by right].
    repeat (split; [done|]). exists s. split; [by apply list_elem_of_further|done].
Qed.

Lemma update_keeps_local_state_witness :
  let ep := mkEndpoint "db" false true in
  let env := λ id : Z,
    mkUpdateScript (inl (mkRelation id (inl ep) (inl ep))) None
      (inl (mkState id ∅ "")) (mkAddScript None [SelChange None] None)
      None None in
  let known := mkRelationer ep (mkState 8 {["u/0" := 1]} "u/0") false in
  let r := mkRelations {[8 := known]} {[8]} in
  let r' := mkRelations
              (<[1 := NewRelationer ep (mkState 1 ∅ "")]>
                 {[8 := mkRelationer ep (mkState 8 {["u/0" := 1]} "u/0") true]})
              ({[1]} ∪ {[8]}) in
  ∃ relationer', relationers r' !! 8 = Some relationer' ∧
                 dirState relationer' = dirState known.
Proof.
  intros ep env known r r'.
  destruct (update_keeps_local_state env r r'
              [(8, mkSnapshot Dying {["u/0" := 5]}); (1, mkSnapshot Alive ∅)]
              None 8 known) as [(Hgone & _)|(relationer' & Hreg & _ & Hstate)].
  - intros id rel [= <-]. reflexivity.
  - cbn. apply NoDup_cons. split; [|apply NoDup_singleton].
    intros Hin. apply list_elem_of_singleton in Hin. discriminate.
  - vm_compute. reflexivity.
  - reflexivity.
  - vm_compute in Hgone. discriminate.
  - exists relationer'. split; [exact Hreg|exact Hstate].
Defined.

(** X12: [update] passes over an entry of the remote map whose relation is
    registered and not dying, or is not registered and is not alive, or
    cannot be found (or the caller is not authorized for it), or has an
    endpoint the charm does not implement: when every entry is such,
    [update] returns no error and the relation set is unchanged. *)
Theorem update_passes_over (env : Z → UpdateScript) (r : relations)
    (remote : list (Z * RelationSnapshot)) :
  Forall (passed_over env r) remote →
  update env r remote = Some (r, None).
Proof.
  induction 1 as [|[id snap] rest Hpass _ IH]; [done|].
  rewrite update_cons.
  assert (updateOne env r id snap = Some (r, None)) as ->; [|done].
  unfold passed_over in Hpass. cbn [fst snd] in Hpass. unfold updateOne.
  destruct (relationers r !! id).
  { by rewrite bool_decide_false. }
  case_bool_decide as Halive; [done|].
  destruct Hpass as [Hna|Hpass]; [done|].
  destruct (relationById (env id)) as [rel|e0]; [|by rewrite Hpass].
  destruct Hpass as (-> & ep & -> & ->). done.
Qed.

Lemma update_passes_over_witness :
  let ep := mkEndpoint "juju-info" false false in
  let env := λ id : Z,
    if bool_decide (id = 1)
    then mkUpdateScript (inr (ErrApi CodeUnauthorized)) None
           (inr (ErrApi CodeNotFound)) (mkAddScript None [] None) None None
    else mkUpdateScript (inl (mkRelation id (inl ep) (inl ep))) None
           (inr (ErrApi CodeNotFound)) (mkAddScript None [] None) None None in
  let r := mkRelations ∅ ∅ in
  update env r [(1, mkSnapshot Alive ∅); (2, mkSnapshot Alive ∅); (3, mkSnapshot Dead ∅)]
  = Some (r, None).
Proof.
  intros ep env r. apply update_passes_over.
  apply Forall_cons_2; [|apply Forall_cons_2; [|apply Forall_cons_2; [|apply Forall_nil_2]]];
    vm_compute.
  - right. reflexivity.
  - right. split; [reflexivity|]. eexists. split; reflexivity.
  - left. discriminate.
Defined.

Lemma updateOne_well_keyed env r id relationSnapshot r' e :
  answers_by_id env → dirs_by_id env → well_keyed r →
  updateOne env r id relationSnapshot = Some (r', e) →
  well_keyed r'.
Proof.
  intros Hby Hdirs Hkeyed Hone id' relationer' Hreg'.
  apply updateOne_effect in Hone as [Hothers Hhere]; [|done].
  destruct (decide (id' = id)) as [->|Hne].
  - destruct (relationers r !! id) as [relationer|] eqn:Hreg.
    + destruct Hhere as [[Hgone _]|(rl & Hrl & _ & Hstate)]; [congruence|].
      assert (rl = relationer') as -> by congruence.
      rewrite Hstate. by apply Hkeyed.
    + destruct Hhere as [Hgone|(rel & ru & dir & _ & _ & Hdir & Hnew)];
        [congruence|].
      assert (relationer' = NewRelationer ru dir) as -> by congruence.
      cbn. by apply Hdirs.
  - destruct (Hothers id' Hne) as [Hsame _]. rewrite Hsame in Hreg'.
    by apply Hkeyed.
Qed.

Lemma update_well_keyed env r remote r' e :
  answers_by_id env → dirs_by_id env → well_keyed r →
  update env r remote = Some (r', e) →
  well_keyed r'.
Proof.
  intros Hby Hdirs. revert r.
  induction remote as [|[id snap] rest IH]; intros r Hkeyed.
  { by intros [= <- _]. }
  rewrite update_cons.
  destruct (updateOne env r id snap) as [[r1 e1]|] eqn:Hone; [|done].
  pose proof (updateOne_well_keyed _ _ _ _ _ _ Hby Hdirs Hkeyed Hone) as Hk1.
  destruct e1; [by intros [= <- _]|]. by apply IH.
Qed.

Lemma hook_id_and_kind local remote remoteBroken info :
  nextRelationHook local remote remoteBroken = inl info →
  RelationId info = StRelationId local ∧ IsRelation (InfoKind info) = true.
Proof. intros Hnext%nextRelationHook_origin. by destruct Hnext. Qed.

(** X13: a hook that [NextHook] returns is one that [PrepareHook] accepts
    and [Name] knows: when the collaborators answer for the relation ids
    they are asked about and every relationer is registered under the
    relation id of its state, the hook has a relation kind, and its relation
    id is registered in the relation set [NextHook] leaves, with a
    relationer that is not implicit; [NextOp] hands that hook to the
    operation factory. *)
Theorem next_hook_is_known {Operation : Type}
    (newRunHook : Info → Operation + error)
    (prepare : Relationer → Info → string + error)
    (env : Z → UpdateScript) (r r' : relations) (localKind : OperationKind)
    (remoteLife : Life) (visitUpdate visitScan : list (Z * RelationSnapshot))
    (info : Info) :
  answers_by_id env → dirs_by_id env → well_keyed r →
  NextHook env r localKind remoteLife visitUpdate visitScan = Some (r', inl info) →
  ∃ relationer,
    relationers r' !! RelationId info = Some relationer ∧
    IsImplicit relationer = false ∧
    IsRelation (InfoKind info) = true ∧
    PrepareHook prepare r' info = prepare relationer info ∧
    Name r' (RelationId info) = inl (epName (ruEndpoint relationer)) ∧
    NextOp newRunHook env r localKind remoteLife visitUpdate visitScan
      = Some (r', newRunHook info).
Proof.
  intros Hby Hdirs Hkeyed Hnext.
  assert (NextOp newRunHook env r localKind remoteLife visitUpdate visitScan
          = Some (r', newRunHook info)) as Hop
    by (unfold NextOp; by rewrite Hnext).
  revert Hnext. unfold NextHook.
  destruct (update env r visitUpdate) as [[r1 [e|]]|] eqn:Hupd; try done.
  case_bool_decide; [done|]. intros [= <- Hscan].
  apply nextHookScan_hook in Hscan as (id & snap & relationer & _ & Hreg & Himp & Hhook).
  unfold relationHook in Hhook. apply hook_id_and_kind in Hhook as [Hid Hkind].
  pose proof (update_well_keyed _ _ _ _ _ Hby Hdirs Hkeyed Hupd) as Hk1.
  rewrite (Hk1 id relationer Hreg) in Hid.
  exists relationer. rewrite Hid. repeat (split; [done|]).
  split; [|split; [|done]].
  - unfold PrepareHook. by rewrite Hkind, Hid, Hreg.
  - unfold Name. by rewrite Hreg.
Qed.

Lemma next_hook_is_known_witness :
  let ep := mkEndpoint "db" false true in
  let env := λ id : Z,
    mkUpdateScript (inl (mkRelation id (inl ep) (inl ep))) None
      (inl (mkState id ∅ "")) (mkAddScript None [SelChange None] None)
      None None in
  let remote := [(1, mkSnapshot Alive {["u/0" := 4]})] in
  let r' := mkRelations {[1 := NewRelationer ep (mkState 1 ∅ "")]} ({[1]} ∪ ∅) in
  Name r' 1 = inl "db".
Proof.
  intros ep env remote r'.
  destruct (next_hook_is_known (Operation := Info) inl (λ _ _, inl "")
              env (mkRelations ∅ ∅) r' Continue Alive remote remote
              (mkInfo RelationJoined 1 "u/0" 4))
    as (relationer & Hreg & _ & _ & _ & Hname & _).
  - intros id rel [= <-]. reflexivity.
  - intros id dir [= <-]. reflexivity.
  - intros id relationer Hreg. cbn in Hreg. by rewrite lookup_empty in Hreg.
  - vm_compute. reflexivity.
  - cbn [RelationId] in Hreg, Hname. rewrite Hname.
    vm_compute in Hreg. injection Hreg as <-. reflexivity.
Defined.

(** ** Further properties of [NextHook] *)

Lemma relationHook_error remoteLife relationer relationSnapshot e :
  relationHook remoteLife relationer relationSnapshot = inr e →
  e = ErrNoOperation ∧
  remoteLife ≠ Dying ∧ SnapLife relationSnapshot ≠ Dying.
Proof.
  unfold relationHook. intros Hhook.
  apply error_is_noop in Hhook as [-> Hb]. split; [done|].
  apply bool_decide_eq_false in Hb. split; intros Hd; apply Hb; auto.
Qed.

Lemma nothing_to_do_cases r remoteLife id relationSnapshot :
  nothing_to_do r remoteLife (id, relationSnapshot) ↔
  match relationers r !! id with
  | None => True
  | Some relationer =>
      IsImplicit relationer = true ∨
      relationHook remoteLife relationer relationSnapshot = inr ErrNoOperation
  end.
Proof. reflexivity. Qed.

Lemma nextHookScan_noop r remoteLife remote :
  nextHookScan r remoteLife remote = inr ErrNoOperation ↔
  Forall (nothing_to_do r remoteLife) remote.
Proof.
  induction remote as [|[id snap] rest IH].
  { split; [constructor|done]. }
  rewrite Forall_cons, nothing_to_do_cases, <- IH. cbn [nextHookScan].
  destruct (relationers r !! id) as [relationer|].
  2:{ split; [by intros ?|by intros [_ ?]]. }
  destruct (IsImplicit relationer).
  { split; [intros ?; split; [by left|done]|by intros [_ ?]]. }
  destruct (relationHook remoteLife relationer snap) as [h|e] eqn:Hhook.
  - split; [done|]. intros [[Hi|Hn] _]; discriminate.
  - apply relationHook_error in Hhook as [-> _].
    split; [intros ?; split; [by right|done]|by intros [_ ?]].
Qed.

Lemma nextHookScan_error r remoteLife remote e :
  nextHookScan r remoteLife remote = inr e → e = ErrNoOperation.
Proof.
  induction remote as [|[id snap] rest IH]; cbn; [by intros [= <-]|].
  destruct (relationers r !! id) as [relationer|]; [|done].
  destruct (IsImplicit relationer); [done|].
  destruct (relationHook remoteLife relationer snap) as [h|e0] eqn:Hhook; [done|].
  apply relationHook_error in Hhook as [-> _]. done.
Qed.

(** X14: the loop of [NextHook] fails only with [ErrNoOperation], and does
    so exactly when every visited relation is unregistered, implicit, or
    has no hook to run; so whether a hook is returned does not depend on
    the order in which the remote map is visited. *)
Theorem scan_noop_any_order (r : relations) (remoteLife : Life)
    (visit visit' : list (Z * RelationSnapshot)) :
  visit ≡ₚ visit' →
  (∀ e, nextHookScan r remoteLife visit = inr e →
     e = ErrNoOperation ∧ Forall (nothing_to_do r remoteLife) visit) ∧
  (Forall (nothing_to_do r remoteLife) visit →
     nextHookScan r remoteLife visit = inr ErrNoOperation) ∧
  (nextHookScan r remoteLife visit = inr ErrNoOperation ↔
   nextHookScan r remoteLife visit' = inr ErrNoOperation).
Proof.
  intros Hperm. split; [|split].
  - intros e He. pose proof (nextHookScan_error _ _ _ _ He) as ->.
    split; [done|]. by apply nextHookScan_noop.
  - apply nextHookScan_noop.
  - rewrite !nextHookScan_noop. by rewrite Hperm.
Qed.

Lemma scan_noop_any_order_witness :
  let ep := mkEndpoint "db" false true in
  let r := mkRelations
             {[1 := mkRelationer ep (mkState 1 {["u/0" := 1]} "") false;
               2 := mkRelationer ep (mkState 2 ∅ "") false]} ∅ in
  let a := (1, mkSnapshot Alive {["u/0" := 1]}) in
  let b := (2, mkSnapshot Alive ∅) in
  nextHookScan r Alive [b; a] = inr ErrNoOperation.
Proof.
  intros ep r a b.
  destruct (scan_noop_any_order r Alive [a; b] [b; a]) as (_ & _ & Hiff).
  - apply Permutation_swap.
  - apply Hiff. vm_compute. reflexivity.
Defined.

(** X15: while the unit is dying, the loop of [NextHook] returns a hook as
    soon as it visits a registered relation that is not implicit, and the
    hook is never [RelationJoined]: such a relation is never passed over
    before it is broken. *)
Theorem dying_unit_always_has_hook (r : relations)
    (visit : list (Z * RelationSnapshot)) (id : Z)
    (relationSnapshot : RelationSnapshot) (relationer : Relationer) :
  (id, relationSnapshot) ∈ visit →
  relationers r !! id = Some relationer →
  IsImplicit relationer = false →
  ∃ info, nextHookScan r Dying visit = inl info ∧
          InfoKind info ≠ RelationJoined.
Proof.
  intros Hin Hreg Himp.
  destruct (nextHookScan r Dying visit) as [info|e] eqn:Hscan.
  - exists info. split; [done|].
    apply nextHookScan_hook in Hscan as (id' & snap' & rl' & _ & _ & _ & Hhook).
    unfold relationHook in Hhook. rewrite bool_decide_true in Hhook by auto.
    apply nextRelationHook_origin in Hhook. by destruct Hhook.
  - exfalso. pose proof (nextHookScan_error _ _ _ _ Hscan) as ->.
    apply nextHookScan_noop in Hscan. rewrite Forall_forall in Hscan.
    specialize (Hscan _ Hin). unfold nothing_to_do in Hscan. cbn in Hscan.
    rewrite Hreg, Himp in Hscan. destruct Hscan as [|Hnoop]; [done|].
    apply relationHook_error in Hnoop as (_ & Hlife & _). done.
Qed.

Lemma dying_unit_always_has_hook_witness :
  let ep := mkEndpoint "db" false true in
  let r := mkRelations {[1 := mkRelationer ep (mkState 1 ∅ "") false]} ∅ in
  ∃ info, nextHookScan r Dying [(1, mkSnapshot Alive ∅)] = inl info ∧
          InfoKind info ≠ RelationJoined.
Proof.
  intros ep r.
  apply (dying_unit_always_has_hook r _ 1 (mkSnapshot Alive ∅)
           (mkRelationer ep (mkState 1 ∅ "") false)).
  - apply list_elem_of_here.
  - reflexivity.
  - reflexivity.
Defined.

(** ** [GetInfo] *)

(** X16: [GetInfo] has exactly one entry per registered relation id, the
    implicit ones included, holding the context information of its
    relationer. *)
Theorem GetInfo_lookup {RelationInfo : Type}
    (ContextInfo : Relationer → RelationInfo) (r : relations) (id : Z) :
  GetInfo ContextInfo r !! id = ContextInfo <$> relationers r !! id.
Proof.
  unfold GetInfo.
  apply (map_fold_weak_ind
           (λ relationInfos m, relationInfos !! id = ContextInfo <$> m !! id)).
  - by rewrite !lookup_empty.
  - intros i relationer m infos Hfresh IH.
    destruct (decide (i = id)) as [->|Hne].
    + by rewrite !lookup_insert_eq.
    + by rewrite !lookup_insert_ne.
Qed.

(** ** Startup: [init] *)

Lemma loadJoined_spec relationOfTag tags m joined :
  loadJoined relationOfTag tags m = inl joined →
  (∀ id rel, m !! id = Some rel → relId rel = id) →
  (∀ id rel, joined !! id = Some rel → relId rel = id) ∧
  (∀ id rel, joined !! id = Some rel →
     m !! id = Some rel ∨ ∃ tag, tag ∈ tags ∧ relationOfTag tag = inl rel) ∧
  (∀ id, id ∈ dom joined ↔
         id ∈ dom m ∨
         ∃ tag rel, tag ∈ tags ∧ relationOfTag tag = inl rel ∧ relId rel = id).
Proof.
  revert m. induction tags as [|tag rest IH]; intros m; cbn.
  - intros [= <-] Hk. split; [done|]. split; [by left|].
    intros id. split; [auto|].
    intros [?|(tag & rel & Hin & _)]; [done|]. by apply elem_of_nil in Hin.
  - destruct (relationOfTag tag) as [relation|e] eqn:Htag; [|done].
    intros Hload Hk.
    destruct (IH _ Hload) as (Hkeyed & Hfrom & Hdom).
    { intros id rel. destruct (decide (id = relId relation)) as [->|Hne].
      - rewrite lookup_insert_eq. by intros [= <-].
      - rewrite lookup_insert_ne by done. apply Hk. }
    split; [done|]. split.
    + intros id rel Hrel. destruct (Hfrom _ _ Hrel) as [Hm|(t & Hin & Ht)].
      * destruct (decide (id = relId relation)) as [->|Hne].
        -- rewrite lookup_insert_eq in Hm. injection Hm as <-.
           right. exists tag. split; [apply list_elem_of_here|done].
        -- rewrite lookup_insert_ne in Hm by done. by left.
      * right. exists t. split; [by apply list_elem_of_further|done].
    + intros id. rewrite Hdom, dom_insert, elem_of_union, elem_of_singleton.
      split.
      * intros [[->|?]|(t & rel & Hin & Hrel & Hid)]; [|by left|].
        -- right. exists tag, relation. split; [apply list_elem_of_here|done].
        -- right. exists t, rel. split; [by apply list_elem_of_further|done].
      * intros [?|(t & rel & Hin & Hrel & Hid)]; [by left; right|].
        apply elem_of_cons in Hin as [->|Hin].
        -- left. left. congruence.
        -- right. eauto.
Qed.

Lemma built_for_weaken joined (from from' : Z → State → Prop) id relationer :
  (∀ dir, from id dir → from' id dir) →
  built_for joined from id relationer → built_for joined from' id relationer.
Proof.
  intros Himp (rel & ru & dir & ? & ? & ? & ?). exists rel, ru, dir. auto.
Qed.

Lemma initKnown_effect env joined r known r' :
  (∀ id rel, joined !! id = Some rel → relId rel = id) →
  initKnown env joined r known = Some (r', None) →
  (∀ id, is_Some (relationers r' !! id) ↔
         is_Some (relationers r !! id) ∨ (id ∈ known.*1 ∧ id ∈ dom joined)) ∧
  (∀ id, id ∈ stateDirs r' ↔
         id ∈ stateDirs r ∧ ¬ (id ∈ known.*1 ∧ id ∉ dom joined)) ∧
  (∀ id relationer, relationers r' !! id = Some relationer →
     relationers r !! id = Some relationer ∨
     built_for joined (λ i dir, (i, dir) ∈ known) id relationer).
Proof.
  intros Hkeyed. revert r.
  induction known as [|[id0 dir] rest IH]; intros r; cbn [initKnown].
  { intros [= <-]. split; [|split]; [| |by left].
    - intros id. split; [by left|]. intros [?|[Hin _]]; [done|].
      by apply elem_of_nil in Hin.
    - intros id. split; [|by intros [? _]]. intros ?. split; [done|].
      intros [Hin _]. by apply elem_of_nil in Hin. }
  cbn [fmap list_fmap fst].
  assert (∀ id relationer,
            built_for joined (λ i d, (i, d) ∈ rest) id relationer →
            built_for joined (λ i d, (i, d) ∈ (id0, dir) :: rest) id relationer)
    as Hfurther.
  { intros id relationer. apply built_for_weaken. intros d.
    apply list_elem_of_further. }
  destruct (joined !! id0) as [rel|] eqn:Hj.
  - destruct (add r rel dir _) as [out|] eqn:Hadd; [|done].
    destruct (addedErr out) eqn:Herr; [done|].
    apply add_effect in Hadd as (Hdirs & _ & Hnew).
    destruct (Hnew Herr) as (ru & Hru & Hset).
    rewrite (Hkeyed _ _ Hj) in Hset.
    intros Hrest. destruct (IH _ Hrest) as (Hreg & Hsd & Hprov).
    assert (id0 ∈ dom joined) as Hin0 by (apply elem_of_dom; eauto).
    split; [|split].
    + intros id. rewrite Hreg, Hset, elem_of_cons.
      destruct (decide (id = id0)) as [->|Hne].
      * rewrite lookup_insert_eq. split; [|eauto]. intros _. right. auto.
      * rewrite lookup_insert_ne by done. split; [|intros [?|[[?|?] ?]]; auto; done].
        intros [?|[? ?]]; auto.
    + intros id. rewrite Hsd, Hdirs, elem_of_cons. split.
      * intros [? Hn]. split; [done|]. intros [[->|?] Hout]; [done|]. by apply Hn.
      * intros [? Hn]. split; [done|]. intros [? ?]. apply Hn. auto.
    + intros id relationer Hlook.
      destruct (Hprov _ _ Hlook) as [Hold|Hb]; [|right; by apply Hfurther].
      rewrite Hset in Hold. destruct (decide (id = id0)) as [->|Hne].
      * rewrite lookup_insert_eq in Hold. injection Hold as <-. right.
        exists rel, ru, dir. repeat (split; [done|]). apply list_elem_of_here.
      * rewrite lookup_insert_ne in Hold by done. by left.
  - destruct (removeResult (env id0)); [done|].
    intros Hrest. destruct (IH _ Hrest) as (Hreg & Hsd & Hprov).
    assert (id0 ∉ dom joined) as Hout0 by (by apply not_elem_of_dom).
    split; [|split].
    + intros id. rewrite Hreg, elem_of_cons. cbn. split.
      * intros [?|[? ?]]; auto.
      * intros [?|[[->|?] ?]]; auto. done.
    + intros id. rewrite Hsd, elem_of_cons. cbn.
      rewrite elem_of_difference, elem_of_singleton. split.
      * intros [[? Hne] Hn]. split; [done|]. intros [[?|?] ?]; [done|]. by apply Hn.
      * intros [? Hn]. split; [split; [done|]|].
        -- intros ->. apply Hn. auto.
        -- intros [? ?]. apply Hn. auto.
    + intros id relationer Hlook.
      destruct (Hprov _ _ Hlook) as [Hold|Hb]; [by left|right; by apply Hfurther].
Qed.

Lemma initJoined_effect env joined knownIds r visit r' :
  (∀ id rel, (id, rel) ∈ visit → joined !! id = Some rel ∧ relId rel = id) →
  initJoined env knownIds r visit = Some (r', None) →
  (∀ id, is_Some (relationers r' !! id) ↔
         is_Some (relationers r !! id) ∨ (id ∈ visit.*1 ∧ id ∉ knownIds)) ∧
  (∀ id, id ∈ stateDirs r' ↔
         id ∈ stateDirs r ∨ (id ∈ visit.*1 ∧ id ∉ knownIds)) ∧
  (∀ id relationer, relationers r' !! id = Some relationer →
     relationers r !! id = Some relationer ∨
     built_for joined
       (λ i dir, (i ∉ knownIds) ∧ readStateDir (env i) = inl dir) id relationer).
Proof.
  revert r. induction visit as [|[id0 rel] rest IH]; intros r Hvisit;
    cbn [initJoined].
  { intros [= <-]. split; [|split]; [| |by left].
    - intros id. split; [by left|]. intros [?|[Hin _]]; [done|].
      by apply elem_of_nil in Hin.
    - intros id. split; [by left|]. intros [?|[Hin _]]; [done|].
      by apply elem_of_nil in Hin. }
  assert (∀ id rel0, (id, rel0) ∈ rest → joined !! id = Some rel0 ∧ relId rel0 = id)
    as Hrestvisit by (intros; apply Hvisit; by apply list_elem_of_further).
  destruct (Hvisit id0 rel (list_elem_of_here _ _)) as [Hj Hid0].
  cbn [fmap list_fmap fst]. case_bool_decide as Hknown.
  - intros Hrest. destruct (IH _ Hrestvisit Hrest) as (Hreg & Hsd & Hprov).
    split; [|split; [|done]].
    + intros id. rewrite Hreg, elem_of_cons. split.
      * intros [?|[? ?]]; auto.
      * intros [?|[[->|?] ?]]; auto. done.
    + intros id. rewrite Hsd, elem_of_cons. split.
      * intros [?|[? ?]]; auto.
      * intros [?|[[->|?] ?]]; auto. done.
  - destruct (readStateDir (env id0)) as [dir|] eqn:Hread; [|done].
    destruct (add _ rel dir _) as [out|] eqn:Hadd; [|done].
    destruct (addedErr out) eqn:Herr; [done|].
    apply add_effect in Hadd as (Hdirs & _ & Hnew).
    destruct (Hnew Herr) as (ru & Hru & Hset).
    rewrite Hid0 in Hset. cbn in Hdirs, Hset.
    intros Hrest. destruct (IH _ Hrestvisit Hrest) as (Hreg & Hsd & Hprov).
    split; [|split].
    + intros id. rewrite Hreg, Hset, elem_of_cons.
      destruct (decide (id = id0)) as [->|Hne].
      * rewrite lookup_insert_eq. split; [|eauto]. intros _. right. auto.
      * rewrite lookup_insert_ne by done. split.
        -- intros [?|[? ?]]; auto.
        -- intros [?|[[?|?] ?]]; auto. done.
    + intros id. rewrite Hsd, Hdirs, elem_of_union, elem_of_singleton, elem_of_cons.
      split.
      * intros [[->|?]|[? ?]]; auto.
      * intros [?|[[->|?] ?]]; auto.
    + intros id relationer Hlook. destruct (Hprov _ _ Hlook) as [Hold|]; [|by right].
      rewrite Hset in Hold. destruct (decide (id = id0)) as [->|Hne].
      * rewrite lookup_insert_eq in Hold. injection Hold as <-. right.
        exists rel, ru, dir. done.
      * rewrite lookup_insert_ne in Hold by done. by left.
Qed.

(** X17: when [init] returns no error for a relation set that starts with
    no relationer, the relation ids registered, and the relation ids with a
    state directory, are exactly the ids of the relations the unit has
    joined: directories of relations no longer joined are removed, joined
    relations without a directory get one; and every relationer is the one
    [add] builds for the joined relation of its id: the new relationer of
    its relation unit, holding the known state directory of that id, or,
    when there was none, the state [ReadStateDir] returned for that id. *)
Theorem init_reconciles (env : Z → UpdateScript) (tags : list string)
    (relationOfTag : string → Relation + error) (knownDirs : list (Z * State))
    (visitJoined : gmap Z Relation → list (Z * Relation)) (r r' : relations) :
  relationers r = ∅ →
  (∀ id, id ∈ stateDirs r ↔ id ∈ knownDirs.*1) →
  (∀ m, visitJoined m ≡ₚ map_to_list m) →
  init env (inl tags) relationOfTag (inl knownDirs) visitJoined r = Some (r', None) →
  let joins_id := λ id,
    ∃ tag rel, tag ∈ tags ∧ relationOfTag tag = inl rel ∧ relId rel = id in
  (∀ id, is_Some (relationers r' !! id) ↔ joins_id id) ∧
  (∀ id, id ∈ stateDirs r' ↔ joins_id id) ∧
  (∀ id relationer, relationers r' !! id = Some relationer →
     ∃ tag rel ru dir,
       tag ∈ tags ∧ relationOfTag tag = inl rel ∧ relId rel = id ∧
       relUnit rel = inl ru ∧
       relationer = NewRelationer ru dir ∧
       ((id, dir) ∈ knownDirs ∨
        ((id ∉ knownDirs.*1) ∧ readStateDir (env id) = inl dir))).
Proof.
  intros Hempty Hdisk Hvisit. unfold init.
  destruct (loadJoined relationOfTag tags ∅) as [joined|] eqn:Hload; [|done].
  destruct (loadJoined_spec _ _ _ _ Hload) as (Hkeyed & Hfrom & Hdom).
  { intros id rel. by rewrite lookup_empty. }
  assert (∀ id, id ∈ dom joined ↔
            ∃ tag rel, tag ∈ tags ∧ relationOfTag tag = inl rel ∧ relId rel = id)
    as Hdom'.
  { intros id. rewrite Hdom, dom_empty. split; [intros [Hin|?]; [|done]|by right].
    by apply elem_of_empty in Hin. }
  destruct (initKnown env joined r knownDirs) as [[r1 [e|]]|] eqn:Hknown; try done.
  destruct (initKnown_effect _ _ _ _ _ Hkeyed Hknown) as (Hreg1 & Hsd1 & Hprov1).
  intros Hjoined.
  assert (∀ id rel, (id, rel) ∈ visitJoined joined →
            joined !! id = Some rel ∧ relId rel = id) as Hv.
  { intros id rel Hin. rewrite Hvisit in Hin.
    apply elem_of_map_to_list in Hin. split; [done|]. by eapply Hkeyed. }
  destruct (initJoined_effect _ joined _ _ _ _ Hv Hjoined) as (Hreg2 & Hsd2 & Hprov2).
  assert (∀ id, id ∈ (visitJoined joined).*1 ↔ id ∈ dom joined) as Hkeys.
  { intros id. rewrite list_elem_of_fmap, elem_of_dom. split.
    - intros ([id' rel] & -> & Hin). destruct (Hv _ _ Hin). eauto.
    - intros [rel Hrel]. exists (id, rel). split; [done|].
      rewrite Hvisit. by apply elem_of_map_to_list. }
  assert (∀ id relationer,
            built_for joined
              (λ i dir, (i, dir) ∈ knownDirs ∨
                        ((i ∉ knownDirs.*1) ∧ readStateDir (env i) = inl dir))
              id relationer →
            ∃ tag rel ru dir,
              tag ∈ tags ∧ relationOfTag tag = inl rel ∧ relId rel = id ∧
              relUnit rel = inl ru ∧ relationer = NewRelationer ru dir ∧
              ((id, dir) ∈ knownDirs ∨
               ((id ∉ knownDirs.*1) ∧ readStateDir (env id) = inl dir))) as Hbuilt.
  { intros id relationer (rel & ru & dir & Hrel & Hru & Hnew & Hdir).
    destruct (Hfrom _ _ Hrel) as [Hm|(tag & Hin & Htag)].
    { by rewrite lookup_empty in Hm. }
    exists tag, rel, ru, dir. repeat (split; [done|]).
    split; [by eapply Hkeyed|done]. }
  cbn zeta. split; [|split].
  - intros id. rewrite <- Hdom', Hreg2, Hreg1, Hempty, lookup_empty, Hkeys.
    destruct (decide (id ∈ knownDirs.*1)); split.
    + intros [[[? [=]]|[_ ?]]|[? ?]]; done.
    + intros ?. left. right. done.
    + intros [[[? [=]]|[? _]]|[? _]]; done.
    + intros ?. right. done.
  - intros id. rewrite <- Hdom', Hsd2, Hsd1, Hkeys, Hdisk.
    destruct (decide (id ∈ knownDirs.*1)), (decide (id ∈ dom joined)); split;
      try tauto.
  - intros id relationer Hlook. apply Hbuilt.
    destruct (Hprov2 _ _ Hlook) as [Hold|Hb].
    + destruct (Hprov1 _ _ Hold) as [Hold0|Hb].
      * by rewrite Hempty, lookup_empty in Hold0.
      * revert Hb. apply built_for_weaken. intros d ?. by left.
    + revert Hb. apply built_for_weaken. intros d ?. by right.
Qed.

Lemma init_reconciles_witness :
  let ep := mkEndpoint "db" false true in
  let env := λ id : Z,
    mkUpdateScript (inl (mkRelation id (inl ep) (inl ep))) None
      (inl (mkState id ∅ "")) (mkAddScript None [SelChange None] None)
      None None in
  let relationOfTag := λ tag : string,
    if String.eqb tag "relation-1" then inl (mkRelation 1 (inl ep) (inl ep))
    else if String.eqb tag "relation-2" then inl (mkRelation 2 (inl ep) (inl ep))
    else inr (ErrApi CodeNotFound) in
  let knownDirs := [(2, mkState 2 {["u/0" := 3]} ""); (5, mkState 5 ∅ "")] in
  let r' := mkRelations
              {[1 := NewRelationer ep (mkState 1 ∅ "");
                2 := NewRelationer ep (mkState 2 {["u/0" := 3]} "")]}
              {[1; 2]} in
  (5 ∉ stateDirs r') ∧ 1 ∈ stateDirs r'.
Proof.
  intros ep env relationOfTag knownDirs r'.
  destruct (init_reconciles env ["relation-1"; "relation-2"] relationOfTag
              knownDirs map_to_list (mkRelations ∅ {[2; 5]}) r')
    as (_ & Hdirs & _).
  - reflexivity.
  - intros id. cbn. rewrite elem_of_union, !elem_of_singleton, elem_of_cons,
      list_elem_of_singleton. reflexivity.
  - reflexivity.
  - vm_compute. reflexivity.
  - split.
    + rewrite Hdirs. intros (tag & rel & Hin & Hrel & Hid).
      apply elem_of_cons in Hin as [->|Hin];
        [|apply list_elem_of_singleton in Hin as ->];
        cbn in Hrel; injection Hrel as <-; discriminate.
    + apply Hdirs. exists "relation-1", (mkRelation 1 (inl ep) (inl ep)).
      split; [apply list_elem_of_here|]. split; reflexivity.
Defined.

(** ** A newly seen relation *)

(** X18: when [update] meets an alive relation that is not registered,
    whose endpoint the charm implements, and [Join] succeeds after any
    number of transient rejections with the watcher stopping cleanly, then
    after [update] the relation is registered with a relationer that holds
    its state directory, and the directory exists, whatever [update] does
    for the entries that follow, an error included. *)
Theorem update_registers_alive (env : Z → UpdateScript) (r r' : relations)
    (id : Z) (relationSnapshot : RelationSnapshot)
    (rest : list (Z * RelationSnapshot)) (e : option error)
    (rel : Relation) (ep ru : Endpoint) (dir : State) (n : nat)
    (later : list Selected) :
  answers_by_id env →
  id ∉ rest.*1 →
  relationers r !! id = None →
  SnapLife relationSnapshot = Alive →
  relationById (env id) = inl rel →
  readCharmDir (env id) = None →
  relEndpoint rel = inl ep →
  epImplementedBy ep = true →
  readStateDir (env id) = inl dir →
  relUnit rel = inl ru →
  watchResult (adding (env id)) = None →
  selected (adding (env id)) =
    replicate n cannotEnterScopeYet ++ SelChange None :: later →
  stopResult (adding (env id)) = None →
  update env r ((id, relationSnapshot) :: rest) = Some (r', e) →
  relationers r' !! id = Some (NewRelationer ru dir) ∧
  id ∈ stateDirs r' ∧
  Name r' id = inl (epName ru).
Proof.
  intros Hby Hfresh Hreg Hlife Hrel Hcharm Hep Himpl Hdir Hru Hw Hs Hstop.
  rewrite update_cons.
  assert (updateOne env r id relationSnapshot =
          Some (setRelationers (withStateDir id r)
                  (<[id := NewRelationer ru dir]> (relationers r)), None)) as ->.
  { unfold updateOne. rewrite Hreg, Hlife, Hrel, Hcharm, Hep, Himpl, Hdir. cbn.
    unfold add. rewrite Hru, Hw, Hs, Hstop, addLoop_retries. cbn.
    by rewrite (Hby id rel Hrel). }
  intros Hupd.
  destruct (update_frame_aux _ _ _ _ _ id Hby Hupd Hfresh) as [Hsame Hdirs].
  cbn in Hsame, Hdirs. rewrite lookup_insert_eq in Hsame.
  split; [done|]. split.
  - apply Hdirs, elem_of_union_l. by apply elem_of_singleton.
  - unfold Name. by rewrite Hsame.
Qed.

Lemma update_registers_alive_witness :
  let ep := mkEndpoint "db" false true in
  let env := λ id : Z,
    if bool_decide (id = 1)
    then mkUpdateScript (inl (mkRelation 1 (inl ep) (inl ep))) None
           (inl (mkState 1 ∅ ""))
           (mkAddScript None [cannotEnterScopeYet; SelChange None] None) None None
    else mkUpdateScript (inr (ErrApi (CodeOther "down"))) None
           (inr (ErrApi CodeNotFound)) (mkAddScript None [] None) None None in
  let r' := mkRelations {[1 := NewRelationer ep (mkState 1 ∅ "")]} {[1]} in
  update env (mkRelations ∅ ∅) [(1, mkSnapshot Alive ∅); (2, mkSnapshot Alive ∅)]
    = Some (r', Some (ErrApi (CodeOther "down"))) ∧
  Name r' 1 = inl "db".
Proof.
  intros ep env r'.
  assert (update env (mkRelations ∅ ∅)
            [(1, mkSnapshot Alive ∅); (2, mkSnapshot Alive ∅)]
          = Some (r', Some (ErrApi (CodeOther "down")))) as Hupd
    by (vm_compute; reflexivity).
  split; [exact Hupd|].
  assert (answers_by_id env) as Hby.
  { intros id rel. unfold env. case_bool_decide as Hid; [|discriminate].
    intros [= <-]. by rewrite Hid. }
  assert (1 ∉ [(2, mkSnapshot Alive ∅)].*1) as Hfresh.
  { cbn. intros Hin. apply list_elem_of_singleton in Hin. discriminate. }
  exact (proj2 (proj2
    (update_registers_alive env (mkRelations ∅ ∅) r' 1 (mkSnapshot Alive ∅)
       [(2, mkSnapshot Alive ∅)] (Some (ErrApi (CodeOther "down")))
       (mkRelation 1 (inl ep) (inl ep)) ep ep (mkState 1 ∅ "") 1 []
       Hby Hfresh eq_refl eq_refl eq_refl eq_refl eq_refl eq_refl eq_refl
       eq_refl eq_refl eq_refl eq_refl Hupd))).
Defined.

(** ** What [NextHook] and [add] return *)

(** X19: the relation set [NextHook] leaves is the one [update] leaves; a
    hook is returned only when the local state is [Continue]; and an error
    of [NextHook] is the error of [update] or [ErrNoOperation]. *)
Theorem NextHook_outcome (env : Z → UpdateScript) (r r' : relations)
    (localKind : OperationKind) (remoteLife : Life)
    (visitUpdate visitScan : list (Z * RelationSnapshot))
    (result : Info + error) :
  NextHook env r localKind remoteLife visitUpdate visitScan = Some (r', result) →
  (∃ updated, update env r visitUpdate = Some (r', updated) ∧
     ∀ e, updated = Some e → result = inr e) ∧
  (∀ info, result = inl info →
     localKind = Continue ∧ update env r visitUpdate = Some (r', None) ∧
     nextHookScan r' remoteLife visitScan = inl info) ∧
  (∀ e, result = inr e →
     e = ErrNoOperation ∨ update env r visitUpdate = Some (r', Some e)).
Proof.
  unfold NextHook.
  destruct (update env r visitUpdate) as [[r1 [e1|]]|]; [| |done].
  - intros [= <- <-]. split; [|split].
    + eexists. split; [done|]. by intros e [= <-].
    + done.
    + intros e [= <-]. by right.
  - case_bool_decide as Hk.
    + intros [= <- <-]. split; [|split].
      * eexists. split; [done|]. done.
      * done.
      * intros e [= <-]. by left.
    + intros [= <- <-]. split; [|split].
      * eexists. split; [done|]. done.
      * intros info Hscan. split; [|done].
        destruct (decide (localKind = Continue)); [done|]. by destruct Hk.
      * intros e He. left. by eapply nextHookScan_error.
Qed.

Lemma NextHook_outcome_witness :
  let ep := mkEndpoint "db" false true in
  let r := mkRelations {[1 := mkRelationer ep (mkState 1 ∅ "") false]} {[1]} in
  let env := λ _ : Z,
    mkUpdateScript (inr (ErrApi CodeNotFound)) None (inr (ErrApi CodeNotFound))
      (mkAddScript None [] None) None None in
  let remote := [(1, mkSnapshot Alive {["u/0" := 1]})] in
  update env r remote = Some (r, None).
Proof.
  intros ep r env remote.
  destruct (NextHook_outcome env r r (OtherOperation "run-hook") Alive
              remote remote (inr ErrNoOperation))
    as ((updated & Hupd & Herr) & _ & _); [vm_compute; reflexivity|].
  destruct updated as [e|]; [|exact Hupd].
  specialize (Herr e eq_refl). discriminate.
Defined.

Lemma addLoop_blocks r id relationer received calls :
  addLoop r id relationer received calls = None ↔
  Forall (λ s, s = cannotEnterScopeYet) received.
Proof.
  revert calls. induction received as [|s rest IH]; intros calls; cbn.
  { split; [constructor|done]. }
  rewrite Forall_cons. destruct s as [| |joined]; cbn.
  - split; [done|]. by intros [[=] _].
  - split; [done|]. by intros [[=] _].
  - destruct joined as [[| | | | |[]]|]; cbn; rewrite ?IH;
      try (split; [done|]; by intros [[=] _]).
    split; [by intros ?|by intros [_ ?]].
Qed.

(** X20: [add] keeps waiting, without ever returning, exactly when the
    relation unit and the watcher were obtained and everything the loop
    receives is a change answered by the transient rejection: neither an
    abort, nor the closing of the watcher, nor any other outcome of [Join]
    ever comes. *)
Theorem add_blocks_iff (r : relations) (rel : Relation) (dir : State)
    (script : AddScript) :
  add r rel dir script = None ↔
  (∃ ru, relUnit rel = inl ru) ∧ watchResult script = None ∧
  Forall (λ s, s = cannotEnterScopeYet) (selected script).
Proof.
  unfold add. destruct (relUnit rel) as [ru|e].
  2:{ split; [done|]. by intros [[ru [=]] _]. }
  destruct (watchResult script).
  { split; [done|]. by intros (_ & [=] & _). }
  rewrite <- (addLoop_blocks r (relId rel) (NewRelationer ru dir) _ 0%nat).
  destruct (addLoop _ _ _ _ _) as [out|].
  - split; [by destruct (stopResult script), (addedErr out)|]. by intros (_ & _ & [=]).
  - split; [|done]. intros _. eauto.
Qed.
